(** * Mesh viewer: loader, attribute derivation and playback

    A shallow embedding of the viewer's page component ([Home]: the streaming
    loader [loadData], the animation interval, the keyboard handler and the
    [Controls] callbacks) and of the geometry built by [CellMesh].

    Conventions of the embedding.
    - JavaScript numbers that hold indices, byte counts and status codes are
      integers ([Z]).  Numbers that hold coordinates, colours and progress
      percentages are exact rationals ([Q]): rounding of binary floating point
      (and of the [Float32Array] stores) is not modelled, and equalities on
      them are stated with [==].  Overflow is not modelled either: where it
      matters, in the height colours, the computation is repeated on
      binary64 numbers and the statements carry a bound.
    - React state is one record [State]; a setter is a function on it.
    - An exception is a value of [Completion]; the loader is written in a
      small writer/exception monad whose log is the list of state updates it
      performs, in program order.
    - Browser built-ins ([parseInt], [JSON.parse], [TextDecoder.decode],
      [Math.sqrt]) are the fields of the class [Platform]. *)

From Stdlib Require Import ZArith QArith Qabs Qminmax Lqa Lia Bool String.
From Stdlib Require Import PrimFloat.
From stdpp Require Import list sorting pretty.

Local Open Scope Z_scope.

(* ================================================================== *)
(** * Part I. The program                                              *)
(* ================================================================== *)

(** ** Data model (the [MeshData] and [TimestepData] interfaces) *)

(** An element of [points]: [p[0]], [p[1]], [p[2]]. *)
Record Point := { p0 : Q; p1 : Q; p2 : Q }.

(** An element of [triangles]: [t[0]], [t[1]], [t[2]]. *)
Record Triangle := { t0 : Z; t1 : Z; t2 : Z }.

Record TimestepData := {
  index : Z;
  time : Q;
  points : list Point;
  triangles : list Triangle
}.

Record Metadata := {
  total_timesteps : Z;
  exported_timesteps : Z;
  time_range : Q * Q
}.

Record MeshData := {
  timesteps : list TimestepData;
  metadata : Metadata
}.

Inductive ColorMode := height | curvature | solid.

(** [data.timesteps.length] *)
Definition timesteps_length (d : MeshData) : Z := Z.of_nat (length (timesteps d)).

(** ** Exceptions *)

(** What a [catch] clause receives: an [Error] object with its message, or
    some other thrown value. *)
Inductive Exn := JsError (message : string) | NonError.

Inductive Completion (A : Type) :=
| Normal (a : A)
| Throw (e : Exn).
Arguments Normal {A} a.
Arguments Throw {A} e.

(** ** Browser built-ins *)

Class Platform := {
  (** [parseInt(s)]; [None] is [NaN]. *)
  parseInt : string -> option Z;
  (** [new TextDecoder().decode(bytes)] *)
  TextDecoder_decode : list Byte.byte -> string;
  (** [JSON.parse(text)], typed as the caller uses it: a text that parses
      to something other than a dataset ([null], a number) is outside the
      model. *)
  JSON_parse : string -> Completion MeshData;
  (** [Math.sqrt] *)
  Math_sqrt : Q -> Q
}.

(** ** The state of [Home] (its [useState] cells) *)

Record State := {
  data : option MeshData;
  loading : bool;
  loadProgress : Q;
  error : option string;
  currentIndex : Z;
  isPlaying : bool;
  playbackSpeed : Q;
  autoRotate : bool;
  showWireframe : bool;
  colorMode : ColorMode
}.

(** The initial values passed to [useState]. *)
Definition initialState : State := {|
  data := None;
  loading := true;
  loadProgress := 0;
  error := None;
  currentIndex := 0;
  isPlaying := false;
  playbackSpeed := 1;
  autoRotate := true;
  showWireframe := false;
  colorMode := height
|}.

Definition setData (v : MeshData) (st : State) : State :=
  {| data := Some v; loading := loading st; loadProgress := loadProgress st;
     error := error st; currentIndex := currentIndex st; isPlaying := isPlaying st;
     playbackSpeed := playbackSpeed st; autoRotate := autoRotate st;
     showWireframe := showWireframe st; colorMode := colorMode st |}.

Definition setLoading (v : bool) (st : State) : State :=
  {| data := data st; loading := v; loadProgress := loadProgress st;
     error := error st; currentIndex := currentIndex st; isPlaying := isPlaying st;
     playbackSpeed := playbackSpeed st; autoRotate := autoRotate st;
     showWireframe := showWireframe st; colorMode := colorMode st |}.

Definition setLoadProgress (v : Q) (st : State) : State :=
  {| data := data st; loading := loading st; loadProgress := v;
     error := error st; currentIndex := currentIndex st; isPlaying := isPlaying st;
     playbackSpeed := playbackSpeed st; autoRotate := autoRotate st;
     showWireframe := showWireframe st; colorMode := colorMode st |}.

Definition setError (v : string) (st : State) : State :=
  {| data := data st; loading := loading st; loadProgress := loadProgress st;
     error := Some v; currentIndex := currentIndex st; isPlaying := isPlaying st;
     playbackSpeed := playbackSpeed st; autoRotate := autoRotate st;
     showWireframe := showWireframe st; colorMode := colorMode st |}.

Definition setCurrentIndex (v : Z) (st : State) : State :=
  {| data := data st; loading := loading st; loadProgress := loadProgress st;
     error := error st; currentIndex := v; isPlaying := isPlaying st;
     playbackSpeed := playbackSpeed st; autoRotate := autoRotate st;
     showWireframe := showWireframe st; colorMode := colorMode st |}.

Definition setIsPlaying (v : bool) (st : State) : State :=
  {| data := data st; loading := loading st; loadProgress := loadProgress st;
     error := error st; currentIndex := currentIndex st; isPlaying := v;
     playbackSpeed := playbackSpeed st; autoRotate := autoRotate st;
     showWireframe := showWireframe st; colorMode := colorMode st |}.

Definition setPlaybackSpeed (v : Q) (st : State) : State :=
  {| data := data st; loading := loading st; loadProgress := loadProgress st;
     error := error st; currentIndex := currentIndex st; isPlaying := isPlaying st;
     playbackSpeed := v; autoRotate := autoRotate st;
     showWireframe := showWireframe st; colorMode := colorMode st |}.

Definition setAutoRotate (v : bool) (st : State) : State :=
  {| data := data st; loading := loading st; loadProgress := loadProgress st;
     error := error st; currentIndex := currentIndex st; isPlaying := isPlaying st;
     playbackSpeed := playbackSpeed st; autoRotate := v;
     showWireframe := showWireframe st; colorMode := colorMode st |}.

Definition setShowWireframe (v : bool) (st : State) : State :=
  {| data := data st; loading := loading st; loadProgress := loadProgress st;
     error := error st; currentIndex := currentIndex st; isPlaying := isPlaying st;
     playbackSpeed := playbackSpeed st; autoRotate := autoRotate st;
     showWireframe := v; colorMode := colorMode st |}.

Definition setColorMode (v : ColorMode) (st : State) : State :=
  {| data := data st; loading := loading st; loadProgress := loadProgress st;
     error := error st; currentIndex := currentIndex st; isPlaying := isPlaying st;
     playbackSpeed := playbackSpeed st; autoRotate := autoRotate st;
     showWireframe := showWireframe st; colorMode := v |}.

(** ** Animation loop *)

(** The callback given to [setInterval]:
    [setCurrentIndex(prev => { const next = prev + 1; if (next >=
    data.timesteps.length) { setIsPlaying(false); return prev }; return next })]. *)
Definition intervalCallback (d : MeshData) (st : State) : State :=
  let prev := currentIndex st in
  let next := prev + 1 in
  if next >=? timesteps_length d
  then setCurrentIndex prev (setIsPlaying false st)
  else setCurrentIndex next st.

(** The animation effect: nothing when [!isPlaying || !data], otherwise an
    interval of [100 / playbackSpeed] milliseconds running [intervalCallback]. *)
Definition animationLoop (st : State) : option (Q * (State -> State)) :=
  match data st with
  | Some d =>
      if isPlaying st
      then Some ((100 / playbackSpeed st)%Q, intervalCallback d)
      else None
  | None => None
  end.

(** One firing of the interval armed by [animationLoop] (none is armed, and
    nothing happens, when the effect returned early). *)
Definition intervalFired (st : State) : State :=
  match animationLoop st with
  | Some (_, callback) => callback st
  | None => st
  end.

(** ** Keyboard controls *)

(** [handleKeyDown]; the boolean is whether [e.preventDefault()] was called. *)
Definition handleKeyDown (key : string) (st : State) : State * bool :=
  match data st with
  | None => (st, false)
  | Some d =>
      if String.eqb key " " then (setIsPlaying (negb (isPlaying st)) st, true)
      else if String.eqb key "ArrowLeft"
        then (setCurrentIndex (Z.max 0 (currentIndex st - 1)) st, false)
      else if String.eqb key "ArrowRight"
        then (setCurrentIndex (Z.min (timesteps_length d - 1) (currentIndex st + 1)) st, false)
      else if String.eqb key "Home" then (setCurrentIndex 0 st, false)
      else if String.eqb key "End" then (setCurrentIndex (timesteps_length d - 1) st, false)
      else if String.eqb key "r" then (setAutoRotate (negb (autoRotate st)) st, false)
      else if String.eqb key "w" then (setShowWireframe (negb (showWireframe st)) st, false)
      else (st, false)
  end.

(** ** The callbacks [Home] hands to [Controls] *)

Definition onIndexChange : Z -> State -> State := setCurrentIndex.
Definition onPlayToggle (st : State) : State := setIsPlaying (negb (isPlaying st)) st.
Definition onAutoRotateToggle (st : State) : State := setAutoRotate (negb (autoRotate st)) st.
Definition onWireframeToggle (st : State) : State := setShowWireframe (negb (showWireframe st)) st.
Definition onColorModeChange : ColorMode -> State -> State := setColorMode.
Definition onPlaybackSpeedChange : Q -> State -> State := setPlaybackSpeed.

(** ** Streaming loader *)

(** The [Response] that [fetch] resolves to.  [chunks] is the payload in
    the pieces the body reader delivers; [read_failure] makes the read that
    follows them reject instead of reporting [done]; [streaming] is whether
    [response.body] is non-null. *)
Record Response := {
  ok : bool;
  status : Z;
  content_length : option string;
  streaming : bool;
  chunks : list (list Byte.byte);
  read_failure : option Exn
}.

(** What [await fetch(url)] does. *)
Inductive FetchOutcome :=
| Rejected (e : Exn)
| Resolved (response : Response).

(** The state updates and log calls the loader performs. *)
Inductive Effect :=
| SetLoadProgress (p : Q)
| SetData (d : MeshData)
| SetError (msg : string)
| SetLoading (b : bool)
| ConsoleError (e : Exn).

(** A loader computation: the effects performed so far, and how it ended. *)
Definition Load (A : Type) : Type := list Effect * Completion A.

Definition ret {A} (a : A) : Load A := ([], Normal a).

Definition bind {A B} (m : Load A) (k : A -> Load B) : Load B :=
  match m with
  | (log, Normal a) => let '(log', r) := k a in (log ++ log', r)
  | (log, Throw e) => (log, Throw e)
  end.

Definition perform (e : Effect) : Load unit := ([e], Normal tt).
Definition throw {A} (e : Exn) : Load A := ([], Throw e).
Definition await {A} (c : Completion A) : Load A := ([], c).

(** [try { body } catch (err) { handler(err) }] *)
Definition try_catch {A} (body : Load A) (handler : Exn -> Load A) : Load A :=
  match body with
  | (log, Normal a) => (log, Normal a)
  | (log, Throw e) => let '(log', r) := handler e in (log ++ log', r)
  end.

Declare Scope load_scope.
Delimit Scope load_scope with load.
Notation "x <- m ;; k" := (bind m (fun x => k))
  (at level 20, m at level 99, k at level 200, only parsing) : load_scope.
Notation "m ;; k" := (bind m (fun _ => k))
  (at level 100, k at level 200, right associativity, only parsing) : load_scope.

(** [chunk.length] *)
Definition chunk_length (chunk : list Byte.byte) : Z := Z.of_nat (length chunk).

(** The text of the template literal [`Failed to load mesh data: ${status}`]. *)
Definition status_message (st : Z) : string :=
  ("Failed to load mesh data: " +:+ pretty st)%string.

(** [err instanceof Error ? err.message : 'Failed to load data'] *)
Definition error_text (err : Exn) : string :=
  match err with
  | JsError message => message
  | NonError => "Failed to load data"%string
  end.

Section Loader.
Context `{Platform}.

(** [contentLength ? parseInt(contentLength) : 0]; [None] is [NaN].
    A header that is absent or the empty string is falsy. *)
Definition total_of (contentLength : option string) : option Z :=
  match contentLength with
  | None => Some 0
  | Some s => if String.eqb s "" then Some 0 else parseInt s
  end.

(** Truthiness of [total]: neither [NaN] nor zero. *)
Definition truthy_total (total : option Z) : option Z :=
  match total with
  | Some n => if n =? 0 then None else Some n
  | None => None
  end.

(** The [while (true)] loop over [reader.read()]: every delivered chunk is
    pushed, counted and followed by a progress update; the loop leaves on
    [done], or the rejected read throws. *)
Fixpoint read_loop (total : Z) (failure : option Exn)
    (incoming : list (list Byte.byte))
    (chunks_acc : list (list Byte.byte)) (received : Z)
    : Load (list (list Byte.byte) * Z) :=
  match incoming with
  | [] =>
      match failure with
      | Some e => throw e
      | None => ret (chunks_acc, received)
      end
  | value :: rest =>
      let chunks_acc := chunks_acc ++ [value] in
      let received := received + chunk_length value in
      (perform (SetLoadProgress (10 + (inject_Z received / inject_Z total) * 80)%Q) ;;
       read_loop total failure rest chunks_acc received)%load
  end.

(** [allChunks]: the chunks copied one after the other into one array of
    [received] bytes. *)
Definition allChunks_of (chunks_acc : list (list Byte.byte)) : list Byte.byte :=
  concat chunks_acc.

(** [await response.json()]: the whole body is read, decoded and parsed. *)
Definition Response_json (response : Response) : Load MeshData :=
  match read_failure response with
  | Some e => throw e
  | None => await (JSON_parse (TextDecoder_decode (concat (chunks response))))
  end.

(** The body of the [try] block of [loadData]. *)
Definition loadData_try (outcome : FetchOutcome) : Load unit :=
  (perform (SetLoadProgress 10) ;;
   response <- await (match outcome with
                      | Rejected e => Throw e
                      | Resolved r => Normal r
                      end) ;;
   (if negb (ok response)
    then throw (JsError (status_message (status response)))
    else ret tt) ;;
   let contentLength := content_length response in
   let total := total_of contentLength in
   match truthy_total total, streaming response with
   | Some total, true =>
       r <- read_loop total (read_failure response) (chunks response) [] 0 ;;
       let '(chunks_acc, received) := r in
       let allChunks := allChunks_of chunks_acc in
       let text := TextDecoder_decode allChunks in
       perform (SetLoadProgress 95) ;;
       meshData <- await (JSON_parse text) ;;
       perform (SetData meshData)
   | _, _ =>
       meshData <- Response_json response ;;
       perform (SetData meshData)
   end ;;
   perform (SetLoadProgress 100) ;;
   (* setTimeout(() => setLoading(false), 300) *)
   perform (SetLoading false))%load.

(** [loadData]: the [try] block and its [catch]. *)
Definition loadData (outcome : FetchOutcome) : Load unit :=
  try_catch (loadData_try outcome)
    (fun err =>
       (perform (ConsoleError err) ;;
        perform (SetError (error_text err)) ;;
        perform (SetLoading false))%load).

(** The updates [loadData] performs, in order. *)
Definition loadEffects (outcome : FetchOutcome) : list Effect :=
  fst (loadData outcome).

End Loader.

(** The progress values among a list of effects, in order. *)
Fixpoint progressValues (log : list Effect) : list Q :=
  match log with
  | [] => []
  | SetLoadProgress p :: rest => p :: progressValues rest
  | _ :: rest => progressValues rest
  end.

(** The datasets handed to [setData] among a list of effects. *)
Fixpoint dataSets (log : list Effect) : list MeshData :=
  match log with
  | [] => []
  | SetData d :: rest => d :: dataSets rest
  | _ :: rest => dataSets rest
  end.

(** The effect of one update on the state of [Home]. *)
Definition applyEffect (e : Effect) (st : State) : State :=
  match e with
  | SetLoadProgress p => setLoadProgress p st
  | SetData d => setData d st
  | SetError msg => setError msg st
  | SetLoading b => setLoading b st
  | ConsoleError _ => st
  end.

Definition applyEffects (log : list Effect) (st : State) : State :=
  fold_left (fun s e => applyEffect e s) log st.

(** ** What [Home] renders *)

(** [MainView d None] is the render in which [currentTimestep] is
    undefined, where [currentTimestep.points] throws. *)
Inductive View :=
| LoadingScreen (progress : Q)
| ErrorScreen (msg : string)
| Blank
| MainView (d : MeshData) (currentTimestep : option TimestepData).

(** [data.timesteps[currentIndex]]; [None] is [undefined]. *)
Definition timestep_at (d : MeshData) (i : Z) : option TimestepData :=
  if i <? 0 then None else timesteps d !! Z.to_nat i.

(** The chain of early returns at the end of [Home]; [if (error)] is false
    for [null] and for the empty string. *)
Definition render (st : State) : View :=
  if loading st then LoadingScreen (loadProgress st)
  else
    match error st with
    | Some msg =>
        if String.eqb msg "" then
          match data st with
          | None => Blank
          | Some d => MainView d (timestep_at d (currentIndex st))
          end
        else ErrorScreen msg
    | None =>
        match data st with
        | None => Blank
        | Some d => MainView d (timestep_at d (currentIndex st))
        end
    end.

(** ** The geometry built by [CellMesh] *)

(** The three buffers attached to the [BufferGeometry]: the ['position'] and
    ['color'] attributes and the index. *)
Record Geometry := {
  position : list Q;
  indices : list Z;
  color : list Q
}.

(** Storing a number into a [Uint32Array] element. *)
Definition ToUint32 (v : Z) : Z := v mod 2 ^ 32.

Definition Uint32Array_from (values : list Z) : list Z := map ToUint32 values.

(** [new Float32Array(values)] and [new Float32Array(n)] (zero-filled). *)
Definition Float32Array_from (values : list Q) : list Q := values.
Definition Float32Array_new (n : nat) : list Q := replicate n 0%Q.

(** [for (const p of timestep.points) posArray.push(p[0], p[1], p[2])] *)
Definition posArray_of (pts : list Point) : list Q :=
  fold_left (fun posArray p => posArray ++ [p0 p; p1 p; p2 p]) pts [].

(** [for (const t of timestep.triangles) idxArray.push(t[0], t[1], t[2])] *)
Definition idxArray_of (tris : list Triangle) : list Z :=
  fold_left (fun idxArray t => idxArray ++ [t0 t; t1 t; t2 t]) tris [].

(** [x < y] on numbers. *)
Definition Qltb (x y : Q) : bool := (Qnum x * QDen y <? Qnum y * QDen x)%Z.

(** One iteration of the loop that tracks [zMin] and [zMax].  [None] stands
    for the initial pair [(Infinity, -Infinity)], against which both tests
    succeed. *)
Definition zScan_step (acc : option (Q * Q)) (p : Point) : option (Q * Q) :=
  match acc with
  | None => Some (p2 p, p2 p)
  | Some (zMin, zMax) =>
      let zMin := if Qltb (p2 p) zMin then p2 p else zMin in
      let zMax := if Qltb zMax (p2 p) then p2 p else zMax in
      Some (zMin, zMax)
  end.

Definition zScan (pts : list Point) : option (Q * Q) :=
  fold_left zScan_step pts None.

(** [zMax - zMin || 1] *)
Definition zRange_of (zMin zMax : Q) : Q :=
  if Qeq_bool (zMax - zMin) 0 then 1%Q else (zMax - zMin)%Q.

Section CellMesh.
Context `{Platform}.

(** The three numbers the [forEach] callback stores for one point. *)
Definition vertexColor (mode : ColorMode) (zMin zRange : Q) (point : Point)
    : Q * Q * Q :=
  let t := ((p2 point - zMin) / zRange)%Q in
  match mode with
  | height =>
      ((t * 0.9 + 0.1)%Q,
       (0.3 + 0.4 * (1 - Qabs (t - 0.5) * 2))%Q,
       ((1 - t) * 0.9 + 0.1)%Q)
  | curvature =>
      let r := Math_sqrt (p0 point ^ 2 + p1 point ^ 2)%Q in
      let rNorm := Qmin (r / 1.2) 1 in
      ((0.2 + rNorm * 0.7)%Q, (0.8 - rNorm * 0.5)%Q, (0.9 - rNorm * 0.6)%Q)
  | solid => (0.3%Q, 0.7%Q, 0.9%Q)
  end.

(** [timestep.points.forEach((point, i) => ...)], from index [i] on.  A
    store outside a typed array is ignored, as is an insertion outside a
    list. *)
Fixpoint forEach_point (mode : ColorMode) (zMin zRange : Q)
    (pts : list Point) (i : nat) (colors : list Q) : list Q :=
  match pts with
  | [] => colors
  | point :: rest =>
      let '(r, g, b) := vertexColor mode zMin zRange point in
      let colors := <[(i * 3)%nat := r]> colors in
      let colors := <[(i * 3 + 1)%nat := g]> colors in
      let colors := <[(i * 3 + 2)%nat := b]> colors in
      forEach_point mode zMin zRange rest (S i) colors
  end.

(** The [colors] array.  Without points the callback never runs (and
    [zRange], then [-Infinity], is never used). *)
Definition colors_of (pts : list Point) (mode : ColorMode) : list Q :=
  let colors := Float32Array_new (length pts * 3) in
  match zScan pts with
  | None => colors
  | Some (zMin, zMax) =>
      let zRange := zRange_of zMin zMax in
      forEach_point mode zMin zRange pts 0 colors
  end.

(** The value computed inside [useMemo]. *)
Definition geometry_of (timestep : TimestepData) (mode : ColorMode) : Geometry :=
  let positions := Float32Array_from (posArray_of (points timestep)) in
  let indices := Uint32Array_from (idxArray_of (triangles timestep)) in
  let colors := colors_of (points timestep) mode in
  {| position := positions; indices := indices; color := colors |}.

(** The [useMemo] callback as a computation that may throw: none of its
    statements does, whatever the triangles contain. *)
Definition CellMesh_geometry (timestep : TimestepData) (mode : ColorMode)
    : Completion Geometry :=
  Normal (geometry_of timestep mode).

End CellMesh.

(** ** Events of a session *)

(** The pair of [Home]'s state with the updates the running [loadData] has
    still to perform. *)
Record Session := {
  state : State;
  pending : list Effect
}.

Inductive Event :=
| LoaderUpdate
| IntervalFire
| KeyDown (key : string)
| SliderChange (value : Z)  (* [parseInt(e.target.value)] of the range input *)
| ResetClick
| PlayClick
| EndClick
| SpeedSelect (speed : Q)
| AutoRotateClick
| WireframeClick
| ColorModeClick (mode : ColorMode).

(** [totalFrames={data.timesteps.length}] *)
Definition totalFrames (d : MeshData) : Z := timesteps_length d.

(** What an event does to the state of [Home].  [Controls] is rendered
    with the current dataset, so its End button uses [data]. *)
Definition handle (ev : Event) (st : State) : State :=
  match ev with
  | LoaderUpdate => st
  | IntervalFire => intervalFired st
  | KeyDown key => fst (handleKeyDown key st)
  | SliderChange value => onIndexChange value st
  | ResetClick => onIndexChange 0 st
  | PlayClick => onPlayToggle st
  | EndClick =>
      match data st with
      | Some d => onIndexChange (totalFrames d - 1) st
      | None => st
      end
  | SpeedSelect speed => onPlaybackSpeedChange speed st
  | AutoRotateClick => onAutoRotateToggle st
  | WireframeClick => onWireframeToggle st
  | ColorModeClick mode => onColorModeChange mode st
  end.

Definition dispatch (ev : Event) (s : Session) : Session :=
  match ev with
  | LoaderUpdate =>
      match pending s with
      | [] => s
      | e :: rest => {| state := applyEffect e (state s); pending := rest |}
      end
  | _ => {| state := handle ev (state s); pending := pending s |}
  end.

(** The options of the speed [<select>]. *)
Definition speedOptions : list Q := [0.25%Q; 0.5%Q; 1%Q; 2%Q; 4%Q].

(** Which events can occur: [Controls] exists only in the main view, its
    slider delivers a value between its [min] and [max], and its select one
    of its options. *)
Definition enabled (s : Session) (ev : Event) : Prop :=
  match ev with
  | LoaderUpdate | IntervalFire | KeyDown _ => True
  | SliderChange value =>
      exists d ts, render (state s) = MainView d ts /\ 0 <= value <= totalFrames d - 1
  | SpeedSelect speed =>
      (exists d ts, render (state s) = MainView d ts) /\ In speed speedOptions
  | _ => exists d ts, render (state s) = MainView d ts
  end.

Section Sessions.
Context `{Platform}.

(** The session when [Home] mounts and [loadData] starts. *)
Definition initialSession (outcome : FetchOutcome) : Session :=
  {| state := initialState; pending := loadEffects outcome |}.

Inductive reachable (outcome : FetchOutcome) : Session -> Prop :=
| reachable_initial : reachable outcome (initialSession outcome)
| reachable_dispatch s ev :
    reachable outcome s -> enabled s ev -> reachable outcome (dispatch ev s).

End Sessions.

(** ** Sample inputs *)

(** A decimal [parseInt] for strings of digits. *)
Fixpoint parseDigits (s : string) (acc : option Z) : option Z :=
  match s with
  | EmptyString => acc
  | String c rest =>
      let n := Z.of_N (Ascii.N_of_ascii c) in
      if (48 <=? n) && (n <=? 57)
      then parseDigits rest (Some (10 * default 0 acc + (n - 48)))
      else acc
  end.

Definition sampleTimestep (i : Z) : TimestepData := {|
  index := i;
  time := inject_Z i;
  points := [ {| p0 := 0; p1 := 0; p2 := 0 |};
              {| p0 := 1; p1 := 0; p2 := 1 |};
              {| p0 := 0; p1 := 1; p2 := 2 |};
              {| p0 := 1; p1 := 1; p2 := 4 |} ];
  triangles := [ {| t0 := 0; t1 := 1; t2 := 2 |}; {| t0 := 1; t1 := 3; t2 := 2 |} ]
|}.

Definition sampleData : MeshData := {|
  timesteps := [sampleTimestep 0; sampleTimestep 1; sampleTimestep 2];
  metadata := {| total_timesteps := 3; exported_timesteps := 3; time_range := (0%Q, 2%Q) |}
|}.

(** A platform that parses the one document ["mesh"]. *)
#[local] Instance samplePlatform : Platform := {|
  parseInt := fun s => parseDigits s None;
  TextDecoder_decode := string_of_list_byte;
  JSON_parse := fun text =>
    if String.eqb text "mesh" then Normal sampleData
    else Throw (JsError "Unexpected token");
  Math_sqrt := fun q => (Z.sqrt (Qnum q * QDen q * 10 ^ 12) # (Qden q * 10 ^ 6))
|}.

Definition sampleChunks : list (list Byte.byte) :=
  [list_byte_of_string "me"; list_byte_of_string "s"; list_byte_of_string "h"].

Definition sampleResponse : Response := {|
  ok := true; status := 200; content_length := Some "4"%string;
  streaming := true; chunks := sampleChunks; read_failure := None
|}.

(** The same payload served without a [content-length] header. *)
Definition sampleResponseNoLength : Response := {|
  ok := true; status := 200; content_length := None;
  streaming := true; chunks := sampleChunks; read_failure := None
|}.

Definition sampleNotFound : Response := {|
  ok := false; status := 404; content_length := None;
  streaming := true; chunks := []; read_failure := None
|}.

Definition sampleMalformed : Response := {|
  ok := true; status := 200; content_length := Some "2"%string;
  streaming := true; chunks := [list_byte_of_string "{"; list_byte_of_string "x"];
  read_failure := None
|}.

(** [Home] once [sampleData] is on screen. *)
Definition sampleLoaded : State :=
  setLoading false (setLoadProgress 100 (setData sampleData initialState)).

(** A timestep whose only triangle names points that do not exist. *)
Definition sampleDangling : TimestepData := {|
  index := 0; time := 0;
  points := [ {| p0 := 0; p1 := 0; p2 := 5 |} ];
  triangles := [ {| t0 := 0; t1 := 1; t2 := 2 |} ]
|}.

(** A timestep whose points all lie at the same height. *)
Definition sampleFlat : TimestepData := {|
  index := 0; time := 0;
  points := [ {| p0 := 0; p1 := 0; p2 := 5 |}; {| p0 := 1; p1 := 0; p2 := 5 |} ];
  triangles := []
|}.

(** ** Vocabulary of the statements *)

(** [v] clamped into [[lo, hi]]. *)
Definition clamp (lo hi v : Z) : Z := Z.max lo (Z.min hi v).

(** [data.timesteps.length - 1] *)
Definition lastIndex (d : MeshData) : Z := timesteps_length d - 1.

(** [n] firings of the interval. *)
Definition firings (n : nat) (st : State) : State := Nat.iter n intervalFired st.

(** What the [catch] clause of [loadData] performs. *)
Definition catch_log (err : Exn) : list Effect :=
  [ConsoleError err; SetError (error_text err); SetLoading false].

(** What [loadData] performs once the body is in: the parsed dataset and
    the end of loading, or the [catch] clause. *)
Definition after_parse `{Platform} (text : string) : list Effect :=
  match JSON_parse text with
  | Normal meshData => [SetData meshData; SetLoadProgress 100; SetLoading false]
  | Throw e => catch_log e
  end.

(** The values [received] takes in the read loop, one per chunk. *)
Fixpoint receivedCounts (incoming : list (list Byte.byte)) (received : Z) : list Z :=
  match incoming with
  | [] => []
  | value :: rest =>
      (received + chunk_length value) :: receivedCounts rest (received + chunk_length value)
  end.

(** The number of bytes in a list of chunks. *)
Definition totalBytes (incoming : list (list Byte.byte)) : Z :=
  fold_right (fun value n => chunk_length value + n) 0 incoming.

(** The update performed after a chunk, as the loop computes it. *)
Definition progressUpdate (total received : Z) : Effect :=
  SetLoadProgress (10 + (inject_Z received / inject_Z total) * 80)%Q.

(** [z] is the least, resp. greatest, third coordinate among [pts]. *)
Definition is_zMin (pts : list Point) (z : Q) : Prop :=
  (exists p, p ∈ pts /\ (p2 p == z)%Q) /\ forall p, p ∈ pts -> (z <= p2 p)%Q.

Definition is_zMax (pts : list Point) (z : Q) : Prop :=
  (exists p, p ∈ pts /\ (p2 p == z)%Q) /\ forall p, p ∈ pts -> (p2 p <= z)%Q.

(** The colour ramp of the height mode as the specification writes it. *)
Definition heightRamp (t : Q) : Q * Q * Q :=
  ((0.1 + 0.9 * t)%Q, (0.3 + 0.4 * (1 - 2 * Qabs (t - 0.5)))%Q, (0.1 + 0.9 * (1 - t))%Q).

(** The RGB triple of vertex [i] in a colour buffer. *)
Definition vertexRGB (colors : list Q) (i : nat) : option (Q * Q * Q) :=
  match colors !! (i * 3)%nat, colors !! (i * 3 + 1)%nat, colors !! (i * 3 + 2)%nat with
  | Some r, Some g, Some b => Some (r, g, b)
  | _, _, _ => None
  end.

Definition rgb_eq (c c' : Q * Q * Q) : Prop :=
  (c.1.1 == c'.1.1 /\ c.1.2 == c'.1.2 /\ c.2 == c'.2)%Q.

(** The three components of a triangle are indices of existing points. *)
Definition validTriangle (timestep : TimestepData) (t : Triangle) : Prop :=
  let n := Z.of_nat (length (points timestep)) in
  0 <= t0 t < n /\ 0 <= t1 t < n /\ 0 <= t2 t < n.

(** The three components of a triangle as they are stored in the index. *)
Definition storedTriangle (t : Triangle) : list Z :=
  [ToUint32 (t0 t); ToUint32 (t1 t); ToUint32 (t2 t)].

(** The session reached from [s] by a list of events. *)
Definition dispatchAll (evs : list Event) (s : Session) : Session :=
  fold_left (fun s ev => dispatch ev s) evs s.

(** The index is a position of the loaded dataset. *)
Definition indexInRange (st : State) : Prop :=
  forall d, data st = Some d -> 0 <= currentIndex st <= lastIndex d.

(** What holds of every session: once a dataset is stored the index is one
    of its positions and no further dataset is on its way; before that the
    index is still 0 and at most one dataset, with a timestep in it, is on
    its way. *)
Definition sessionInvariant (s : Session) : Prop :=
  match data (state s) with
  | Some d =>
      0 <= currentIndex (state s) <= lastIndex d /\ dataSets (pending s) = []
  | None =>
      currentIndex (state s) = 0
      /\ (dataSets (pending s) = []
          \/ exists d, dataSets (pending s) = [d] /\ timesteps d <> [])
  end.

(** ** Further parts of the source *)

(** [target.set(source, offset)] on a typed array: a [RangeError] when the
    source does not fit at the offset, otherwise the elements from the
    offset on are overwritten. *)
Definition Uint8Array_set (target source : list Byte.byte) (offset : Z)
    : Completion (list Byte.byte) :=
  if (offset <? 0) || (chunk_length target <? offset + chunk_length source)
  then Throw (JsError "offset is out of bounds")
  else Normal (list_inserts (Z.to_nat offset) source target).

(** [for (const chunk of chunks) { allChunks.set(chunk, position); position
    += chunk.length }] *)
Fixpoint copy_chunks (chunks_acc : list (list Byte.byte)) (position : Z)
    (allChunks : list Byte.byte) : Completion (list Byte.byte) :=
  match chunks_acc with
  | [] => Normal allChunks
  | chunk :: rest =>
      match Uint8Array_set allChunks chunk position with
      | Normal allChunks => copy_chunks rest (position + chunk_length chunk) allChunks
      | Throw e => Throw e
      end
  end.

(** [const allChunks = new Uint8Array(received)] followed by the copy loop. *)
Definition allChunks_copy (chunks_acc : list (list Byte.byte)) (received : Z)
    : Completion (list Byte.byte) :=
  copy_chunks chunks_acc 0 (replicate (Z.to_nat received) Byte.x00).

(** The [useFrame] callback of [RotatingGroup]: [if (autoRotate &&
    groupRef.current) groupRef.current.rotation.y += delta * rotationSpeed].
    The argument is [rotation.y] of the group, [None] while the ref is
    null. *)
Definition RotatingGroup_frame (autoRotate : bool) (rotationSpeed : Q)
    (rotation_y : option Q) (delta : Q) : option Q :=
  match rotation_y with
  | Some y => if autoRotate then Some (y + delta * rotationSpeed)%Q else Some y
  | None => None
  end.

(** The callback run on a sequence of frames. *)
Definition RotatingGroup_frames (autoRotate : bool) (rotationSpeed : Q)
    (deltas : list Q) (rotation_y : option Q) : option Q :=
  fold_left (RotatingGroup_frame autoRotate rotationSpeed) deltas rotation_y.

(** The width of the bar drawn over the slider in [Controls], in percent:
    [(currentIndex / (totalFrames - 1)) * 100].  [None] is the result of a
    division by zero ([NaN] or an infinity). *)
Definition progressBarWidth (currentIndex totalFrames : Z) : option Q :=
  if totalFrames - 1 =? 0 then None
  else Some ((inject_Z currentIndex / inject_Z (totalFrames - 1)) * 100)%Q.

(** The time a sequence of frames takes. *)
Definition elapsed (deltas : list Q) : Q := fold_right Qplus 0%Q deltas.

(** ** More vocabulary *)

(** The messages handed to [setError] among a list of effects. *)
Fixpoint errorMessages (log : list Effect) : list string :=
  match log with
  | [] => []
  | SetError msg :: rest => msg :: errorMessages rest
  | _ :: rest => errorMessages rest
  end.

(** The effect is a progress report. *)
Definition isProgress (e : Effect) : Prop :=
  match e with
  | SetLoadProgress _ => True
  | _ => False
  end.

(** What [loadData] performs after its last progress report of a load
    that succeeds. *)
Definition success_log (d : MeshData) : list Effect :=
  [SetData d; SetLoadProgress 100; SetLoading false].

(** The same response without its [content-length] header. *)
Definition withoutContentLength (r : Response) : Response :=
  {| ok := ok r; status := status r; content_length := None;
     streaming := streaming r; chunks := chunks r; read_failure := read_failure r |}.

(** The state [Home] is in when the load of [d] has succeeded and nothing
    else has happened. *)
Definition loadedState (d : MeshData) : State :=
  setLoading false (setLoadProgress 100 (setData d initialState)).

(** A second invariant of sessions: playback needs a dataset, the speed is
    an option of the select, and a dataset and an error exclude each
    other, now and in what the loader has still to do. *)
Definition sessionDiscipline (s : Session) : Prop :=
  (isPlaying (state s) = true -> data (state s) <> None)
  /\ In (playbackSpeed (state s)) speedOptions
  /\ (data (state s) <> None ->
      error (state s) = None
      /\ errorMessages (pending s) = [] /\ dataSets (pending s) = [])
  /\ (error (state s) <> None -> dataSets (pending s) = [])
  /\ (dataSets (pending s) = []
      \/ (errorMessages (pending s) = [] /\ exists d, dataSets (pending s) = [d])).

(** The periods the speed select can produce, in milliseconds. *)
Definition periodOptions : list Q := [400%Q; 200%Q; 100%Q; 50%Q; 25%Q].

(** A flat buffer read back three items at a time, as an attribute of item
    size 3 is read. *)
Fixpoint itemsOf3 {A} (buffer : list A) : list (A * A * A) :=
  match buffer with
  | a :: b :: c :: rest => (a, b, c) :: itemsOf3 rest
  | _ => []
  end.

Definition triangleTriple (t : Triangle) : Z * Z * Z := (t0 t, t1 t, t2 t).

(** Every triangle of the timestep is valid. *)
Definition validTimestep (timestep : TimestepData) : Prop :=
  forall t, t ∈ triangles timestep -> validTriangle timestep t.

(** A point with its height multiplied by [k] and raised by [dz], and a
    timestep with a map applied to all its points. *)
Definition rescalePoint (k dz : Q) (p : Point) : Point :=
  {| p0 := p0 p; p1 := p1 p; p2 := (p2 p * k + dz)%Q |}.

Definition mapPoints (f : Point -> Point) (timestep : TimestepData) : TimestepData :=
  {| index := index timestep; time := time timestep;
     points := map f (points timestep); triangles := triangles timestep |}.

(** The three numbers stored for a point, as a list. *)
Definition colorItems `{Platform} (mode : ColorMode) (zMin zRange : Q) (point : Point)
    : list Q :=
  let '(r, g, b) := vertexColor mode zMin zRange point in [r; g; b].

(** A session in which the sample dataset is loaded, playback was started
    from the button and the speed set to 2. *)
Definition sampleEvents : list Event :=
  [LoaderUpdate; LoaderUpdate; LoaderUpdate; LoaderUpdate; LoaderUpdate;
   LoaderUpdate; LoaderUpdate; LoaderUpdate; PlayClick; SpeedSelect 2].

Definition sampleSession : Session :=
  dispatchAll sampleEvents (initialSession (Resolved sampleResponse)).

(** Componentwise [==] of optional colours. *)
Definition rgb_opt_eq (c c' : option (Q * Q * Q)) : Prop :=
  match c, c' with
  | Some c, Some c' => rgb_eq c c'
  | None, None => True
  | _, _ => False
  end.

(** A dataset without timesteps, and a response that delivers more bytes
    than it declares. *)
Definition emptyData : MeshData := {|
  timesteps := [];
  metadata := {| total_timesteps := 0; exported_timesteps := 0; time_range := (0%Q, 0%Q) |}
|}.

Definition sampleOversized : Response := {|
  ok := true; status := 200; content_length := Some "2"%string;
  streaming := true; chunks := sampleChunks; read_failure := None
|}.

Definition sampleUnreadableLength : Response := {|
  ok := true; status := 200; content_length := Some "unknown"%string;
  streaming := true; chunks := sampleChunks; read_failure := None
|}.

Definition sampleInterrupted : Response := {|
  ok := true; status := 200; content_length := Some "4"%string;
  streaming := true; chunks := [list_byte_of_string "me"];
  read_failure := Some (JsError "network error")
|}.

(** ** The height colours on binary64 numbers

    The numbers of the program are binary64, where a difference can
    overflow to an infinity.  The statements of [CellMesh] that the height
    mode runs are repeated here on [float], for a timestep given by the
    heights [p[2]] of its points (the other coordinates are not read in
    this mode).  The rounding of the [Float32Array] store is not
    modelled. *)

(** One iteration of the loop that tracks [zMin] and [zMax]. *)
Definition zScan_step64 (acc : float * float) (z : float) : float * float :=
  let '(zMin, zMax) := acc in
  let zMin := if (z <? zMin)%float then z else zMin in
  let zMax := if (zMax <? z)%float then z else zMax in
  (zMin, zMax).

(** [let zMin = Infinity, zMax = -Infinity] and the loop. *)
Definition zScan64 (heights : list float) : float * float :=
  fold_left zScan_step64 heights (infinity, neg_infinity).

(** [zMax - zMin || 1]: zero and [NaN] are falsy. *)
Definition zRange64 (zMin zMax : float) : float :=
  let d := (zMax - zMin)%float in
  if (d =? 0)%float || is_nan d then 1%float else d.

#[warnings="-inexact-float"] Definition heightColor64 (zMin zRange z : float) : float * float * float :=
  let t := ((z - zMin) / zRange)%float in
  ((t * 0.9 + 0.1)%float,
   (0.3 + 0.4 * (1 - abs (t - 0.5) * 2))%float,
   ((1 - t) * 0.9 + 0.1)%float).

(** The colours of the vertices, in order. *)
Definition heightColors64 (heights : list float) : list (float * float * float) :=
  let '(zMin, zMax) := zScan64 heights in
  let zRange := zRange64 zMin zMax in
  map (heightColor64 zMin zRange) heights.

(** The least number whose binary64 rounding is an infinity. *)
Definition doubleOverflow : Q := inject_Z (2 ^ 1024 - 2 ^ 970).

(** Heights whose difference overflows, and heights as in
    [sampleTimestep]. *)
#[warnings="-inexact-float"] Definition farHeights : list float := [(-1e308)%float; 1e308%float].

Definition sampleHeights : list float := [0%float; 1%float; 2%float; 4%float].

(* ================================================================== *)
(** * Part II. Properties                                              *)
(* ================================================================== *)

(** ** Playback and input *)

Lemma setCurrentIndex_frame v st :
  data (setCurrentIndex v st) = data st
  /\ isPlaying (setCurrentIndex v st) = isPlaying st
  /\ autoRotate (setCurrentIndex v st) = autoRotate st
  /\ showWireframe (setCurrentIndex v st) = showWireframe st.
Proof. by destruct st. Qed.

Lemma intervalFired_playing d st :
  data st = Some d -> isPlaying st = true ->
  intervalFired st = intervalCallback d st.
Proof. intros Hd Hp. unfold intervalFired, animationLoop. by rewrite Hd, Hp. Qed.

Lemma intervalFired_paused st :
  isPlaying st = false -> intervalFired st = st.
Proof.
  intros Hp. unfold intervalFired, animationLoop. rewrite Hp. by destruct (data st).
Qed.

Lemma intervalFired_no_data st :
  data st = None -> intervalFired st = st.
Proof. intros Hd. unfold intervalFired, animationLoop. by rewrite Hd. Qed.

(** One firing, in a playing state: the next index, or the same index and
    a pause. *)
Lemma intervalCallback_cases d st :
  (currentIndex st + 1 < timesteps_length d ->
     intervalCallback d st = setCurrentIndex (currentIndex st + 1) st)
  /\ (timesteps_length d <= currentIndex st + 1 ->
     intervalCallback d st = setCurrentIndex (currentIndex st) (setIsPlaying false st)).
Proof.
  unfold intervalCallback. split; intros Hlt.
  - destruct (Z.geb_spec (currentIndex st + 1) (timesteps_length d)); [lia | done].
  - destruct (Z.geb_spec (currentIndex st + 1) (timesteps_length d)); [done | lia].
Qed.

Lemma intervalFired_data st : data (intervalFired st) = data st.
Proof.
  unfold intervalFired, animationLoop.
  destruct (data st) as [d|] eqn:Hd; [|done].
  destruct (isPlaying st); [|done].
  unfold intervalCallback. by case_match.
Qed.

Lemma firings_data n st : data (firings n st) = data st.
Proof.
  induction n as [|n IH]; [done|].
  unfold firings in *. simpl. by rewrite intervalFired_data.
Qed.

Lemma firings_S n st : firings (S n) st = intervalFired (firings n st).
Proof. done. Qed.

(** The index and the play flag after [n] firings. *)
Lemma firings_index n d st :
  data st = Some d -> isPlaying st = true ->
  0 <= currentIndex st <= lastIndex d ->
  currentIndex (firings n st) = Z.min (currentIndex st + Z.of_nat n) (lastIndex d)
  /\ isPlaying (firings n st) = (currentIndex st + Z.of_nat n <=? lastIndex d).
Proof.
  intros Hd Hp Hr. unfold lastIndex in *.
  induction n as [|n [IHi IHp]].
  - simpl. rewrite Hp. split; [lia|]. symmetry. apply Z.leb_le. lia.
  - rewrite firings_S.
    destruct (Z.leb_spec (currentIndex st + Z.of_nat n) (timesteps_length d - 1))
      as [Hle|Hgt].
    + rewrite (intervalFired_playing d) by (by rewrite ?firings_data).
      destruct (intervalCallback_cases d (firings n st)) as [Hadv Hstop].
      destruct (Z.leb_spec (currentIndex st + Z.of_nat (S n)) (timesteps_length d - 1)).
      * rewrite Hadv by lia. simpl. split; [lia|]. destruct (firings n st); simpl in *. done.
      * rewrite Hstop by lia. simpl. split; [lia | done].
    + rewrite intervalFired_paused by done.
      split; [lia|]. rewrite IHp. symmetry. apply Z.leb_gt. lia.
Qed.

(** C2.  In a playing state whose index is a position of the dataset, the
    animation effect arms an interval of period [100 / playbackSpeed]; a
    firing below the last index advances the index by exactly one and keeps
    playing; a firing at the last index leaves the index there and pauses;
    after any number of firings the index is the start index plus that
    number, capped at the last index, so it never decreases and never
    returns to 0. *)
Theorem interval_advances_and_stops_at_end (d : MeshData) (st : State) (n : nat) :
  data st = Some d -> isPlaying st = true ->
  0 <= currentIndex st <= lastIndex d ->
  (exists callback,
      animationLoop st = Some ((100 / playbackSpeed st)%Q, callback)
      /\ intervalFired st = callback st)
  /\ (currentIndex st < lastIndex d ->
      currentIndex (intervalFired st) = currentIndex st + 1
      /\ isPlaying (intervalFired st) = true)
  /\ (currentIndex st = lastIndex d ->
      currentIndex (intervalFired st) = lastIndex d
      /\ isPlaying (intervalFired st) = false)
  /\ currentIndex (firings n st) = Z.min (currentIndex st + Z.of_nat n) (lastIndex d)
  /\ isPlaying (firings n st) = (currentIndex st + Z.of_nat n <=? lastIndex d)
  /\ currentIndex st <= currentIndex (firings n st).
Proof.
  intros Hd Hp Hr.
  destruct (intervalCallback_cases d st) as [Hadv Hstop].
  destruct (firings_index n d st Hd Hp Hr) as [Hi Hpl].
  unfold lastIndex in *.
  repeat split.
  - exists (intervalCallback d). unfold intervalFired, animationLoop.
    by rewrite Hd, Hp.
  - rewrite (intervalFired_playing d), Hadv by (done || lia). done.
  - rewrite (intervalFired_playing d), Hadv by (done || lia).
    by destruct st.
  - rewrite (intervalFired_playing d), Hstop by (done || lia). simpl. lia.
  - rewrite (intervalFired_playing d), Hstop by (done || lia). done.
  - exact Hi.
  - exact Hpl.
  - rewrite Hi. lia.
Qed.

(** Five firings from index 0 of the three sample timesteps. *)
Lemma interval_advances_and_stops_at_end_witness :
  currentIndex (firings 5 (setIsPlaying true sampleLoaded)) = 2
  /\ isPlaying (firings 5 (setIsPlaying true sampleLoaded)) = false.
Proof.
  destruct (interval_advances_and_stops_at_end sampleData
              (setIsPlaying true sampleLoaded) 5)
    as (_ & _ & _ & Hi & Hp & _).
  - reflexivity.
  - reflexivity.
  - vm_compute. split; discriminate.
  - split; [exact Hi | exact Hp].
Defined.

(** The slider and the two jump buttons hand [onIndexChange] a position of
    the dataset. *)
Lemma slider_value_in_range s value :
  enabled s (SliderChange value) ->
  exists d, data (state s) = Some d /\ 0 <= value <= lastIndex d.
Proof.
  intros (d & ts & Hview & Hv). exists d. split; [|exact Hv].
  unfold render in Hview.
  destruct (loading (state s)); [discriminate|].
  destruct (error (state s)) as [msg|]; [destruct (String.eqb msg "")|];
    destruct (data (state s)); congruence.
Qed.

(** C1 (as stated) fails: a negative argument is stored as it is. *)
Lemma onIndexChange_clamps_counterexample :
  ~ (forall (i : Z) (d : MeshData) (st : State),
        data st = Some d ->
        currentIndex (onIndexChange i st) = clamp 0 (lastIndex d) i).
Proof.
  intros Hclamp.
  specialize (Hclamp (-5) sampleData sampleLoaded eq_refl).
  vm_compute in Hclamp. discriminate.
Qed.

(** C1 (amended).  [onIndexChange] is [setCurrentIndex]: it stores its
    argument unchanged and touches no other state, [isPlaying] included.
    The stored value is the clamped one whenever the argument already is a
    position of the dataset, which is the case for every value the slider
    can deliver; [-5] and [lastIndex + 50] are stored as they are. *)
Theorem onIndexChange_stores_argument (i : Z) (st : State) :
  currentIndex (onIndexChange i st) = i
  /\ isPlaying (onIndexChange i st) = isPlaying st
  /\ (forall d, data st = Some d ->
        0 <= i <= lastIndex d ->
        currentIndex (onIndexChange i st) = clamp 0 (lastIndex d) i)
  /\ (forall s value, state s = st -> enabled s (SliderChange value) ->
        exists d, data st = Some d
          /\ currentIndex (state (dispatch (SliderChange value) s))
             = clamp 0 (lastIndex d) value)
  /\ currentIndex (onIndexChange (-5) st) = -5
  /\ (forall d, currentIndex (onIndexChange (lastIndex d + 50) st) = lastIndex d + 50).
Proof.
  split; [done|]. split; [done|]. split; [|split; [|done]].
  - intros d _. unfold clamp. simpl. lia.
  - intros s value <- Hen.
    destruct (slider_value_in_range s value Hen) as (d & Hd & Hv).
    exists d. split; [done|]. unfold clamp. simpl. lia.
Qed.

(** C10.  While [data] is null the keyboard handler returns at once: the
    whole state, and so [currentIndex], [isPlaying], [autoRotate] and
    [showWireframe], is unchanged, and [preventDefault] is not called. *)
Theorem handleKeyDown_without_data (key : string) (st : State) :
  data st = None ->
  handleKeyDown key st = (st, false)
  /\ currentIndex (handleKeyDown key st).1 = currentIndex st
  /\ isPlaying (handleKeyDown key st).1 = isPlaying st
  /\ autoRotate (handleKeyDown key st).1 = autoRotate st
  /\ showWireframe (handleKeyDown key st).1 = showWireframe st.
Proof.
  intros Hd. unfold handleKeyDown. rewrite Hd. done.
Qed.

(** Space pressed right after the mount. *)
Lemma handleKeyDown_without_data_witness :
  handleKeyDown " " initialState = (initialState, false).
Proof.
  apply (handleKeyDown_without_data " " initialState). reflexivity.
Defined.

(** ** The loader's log *)

Lemma progressValues_app log log' :
  progressValues (log ++ log') = progressValues log ++ progressValues log'.
Proof.
  induction log as [|e log IH]; [done|].
  destruct e; simpl; by rewrite ?IH.
Qed.

Lemma dataSets_app log log' :
  dataSets (log ++ log') = dataSets log ++ dataSets log'.
Proof.
  induction log as [|e log IH]; [done|].
  destruct e; simpl; by rewrite ?IH.
Qed.

Lemma progressValues_updates total counts :
  progressValues (map (progressUpdate total) counts)
  = map (fun received => (10 + (inject_Z received / inject_Z total) * 80)%Q) counts.
Proof. induction counts as [|c counts IH]; [done|]. simpl. by rewrite IH. Qed.

Lemma dataSets_updates total counts :
  dataSets (map (progressUpdate total) counts) = [].
Proof. by induction counts. Qed.

Lemma dataSets_catch_log e : dataSets (catch_log e) = [].
Proof. done. Qed.

Lemma applyEffects_app log log' st :
  applyEffects (log ++ log') st = applyEffects log' (applyEffects log st).
Proof. unfold applyEffects. by rewrite fold_left_app. Qed.

(** Updates other than [setData] leave [data] alone. *)
Lemma applyEffects_no_data log st :
  dataSets log = [] -> data (applyEffects log st) = data st.
Proof.
  revert st. induction log as [|e log IH]; intros st Hnone; [done|].
  unfold applyEffects in *. simpl.
  destruct e; simpl in Hnone; try discriminate; by rewrite IH.
Qed.

(** After the [catch] clause ran, the error is set and loading is over. *)
Lemma applyEffects_catch_log e st :
  error (applyEffects (catch_log e) st) = Some (error_text e)
  /\ loading (applyEffects (catch_log e) st) = false
  /\ data (applyEffects (catch_log e) st) = data st.
Proof. done. Qed.

Section LoaderFacts.
Context `{Platform}.

(** The read loop in closed form. *)
Lemma read_loop_eq total failure incoming chunks_acc received :
  read_loop total failure incoming chunks_acc received
  = (map (progressUpdate total) (receivedCounts incoming received),
     match failure with
     | Some e => Throw e
     | None => Normal (chunks_acc ++ incoming, received + totalBytes incoming)
     end).
Proof.
  revert chunks_acc received.
  induction incoming as [|value rest IH]; intros chunks_acc received.
  - simpl. destruct failure; [done|].
    unfold ret. by rewrite app_nil_r, Z.add_0_r.
  - simpl. rewrite IH. unfold bind, perform. simpl.
    destruct failure; [done|].
    by rewrite <- app_assoc, Z.add_assoc.
Qed.

Lemma loadEffects_rejected e :
  loadEffects (Rejected e) = SetLoadProgress 10 :: catch_log e.
Proof. done. Qed.

Lemma loadEffects_not_ok r :
  ok r = false ->
  loadEffects (Resolved r)
  = SetLoadProgress 10 :: catch_log (JsError (status_message (status r))).
Proof.
  intros Hok. unfold loadEffects, loadData, loadData_try. simpl.
  rewrite Hok. done.
Qed.

(** The streaming branch. *)
Lemma loadEffects_streaming r total :
  ok r = true ->
  truthy_total (total_of (content_length r)) = Some total ->
  streaming r = true ->
  loadEffects (Resolved r)
  = SetLoadProgress 10
    :: map (progressUpdate total) (receivedCounts (chunks r) 0)
    ++ match read_failure r with
       | Some e => catch_log e
       | None =>
           SetLoadProgress 95
           :: after_parse (TextDecoder_decode (concat (chunks r)))
       end.
Proof.
  intros Hok Htotal Hstream.
  unfold loadEffects, loadData, loadData_try, after_parse. simpl.
  rewrite Hok, Htotal, Hstream. simpl.
  rewrite read_loop_eq. unfold allChunks_of.
  destruct (read_failure r) as [e|]; simpl.
  - done.
  - destruct (JSON_parse _); simpl; by rewrite <- app_assoc.
Qed.

(** The fallback branch. *)
Lemma loadEffects_fallback r :
  ok r = true ->
  truthy_total (total_of (content_length r)) = None \/ streaming r = false ->
  loadEffects (Resolved r)
  = SetLoadProgress 10
    :: match read_failure r with
       | Some e => catch_log e
       | None => after_parse (TextDecoder_decode (concat (chunks r)))
       end.
Proof.
  intros Hok Hfb.
  unfold loadEffects, loadData, loadData_try, after_parse, Response_json. simpl.
  rewrite Hok. simpl.
  destruct (truthy_total (total_of (content_length r))) as [total|] eqn:Htot;
    [destruct (streaming r) eqn:Hs; [destruct Hfb; congruence|]|];
    destruct (read_failure r) as [e|]; simpl; try done;
    destruct (JSON_parse _); done.
Qed.

(** [setData] is called at most once. *)
Lemma loadEffects_dataSets outcome :
  dataSets (loadEffects outcome) = []
  \/ exists d, dataSets (loadEffects outcome) = [d].
Proof.
  destruct outcome as [e|r]; [by left|].
  destruct (ok r) eqn:Hok; [|left; by rewrite loadEffects_not_ok].
  assert (Hparse : forall text,
    dataSets (after_parse text) = [] \/ exists d, dataSets (after_parse text) = [d]).
  { intros text. unfold after_parse. destruct (JSON_parse text); [right|left]; eauto. }
  destruct (truthy_total (total_of (content_length r))) as [total|] eqn:Htot;
    [destruct (streaming r) eqn:Hs|].
  - rewrite (loadEffects_streaming r total) by done. simpl.
    rewrite dataSets_app, dataSets_updates. simpl.
    destruct (read_failure r); [by left|]. apply Hparse.
  - rewrite loadEffects_fallback by auto. simpl.
    destruct (read_failure r); [by left|]. apply Hparse.
  - rewrite loadEffects_fallback by auto. simpl.
    destruct (read_failure r); [by left|]. apply Hparse.
Qed.

End LoaderFacts.

(** ** Progress of a load *)

Lemma chunk_length_nonneg value : 0 <= chunk_length value.
Proof. unfold chunk_length. lia. Qed.

Lemma totalBytes_nonneg incoming : 0 <= totalBytes incoming.
Proof.
  induction incoming as [|value rest IH]; simpl; [lia|].
  pose proof (chunk_length_nonneg value). lia.
Qed.

(** The byte counts grow, from the start count to the size of the body. *)
Lemma receivedCounts_bounds incoming received :
  Forall (fun c => received <= c <= received + totalBytes incoming)
         (receivedCounts incoming received).
Proof.
  revert received. induction incoming as [|value rest IH]; intros received; simpl.
  - constructor.
  - pose proof (chunk_length_nonneg value). pose proof (totalBytes_nonneg rest).
    constructor; [lia|].
    eapply Forall_impl; [apply IH|]. simpl. intros c Hc. lia.
Qed.

Lemma receivedCounts_sorted incoming received :
  StronglySorted Z.le (receivedCounts incoming received).
Proof.
  revert received. induction incoming as [|value rest IH]; intros received; simpl.
  - constructor.
  - constructor; [apply IH|].
    eapply Forall_impl; [apply receivedCounts_bounds|]. simpl. intros c Hc. lia.
Qed.

(** The percentage the loop reports, as the specification writes it. *)
Lemma progress_formula total received :
  (10 + (inject_Z received / inject_Z total) * 80
   == 10 + 80 * (inject_Z received / inject_Z total))%Q.
Proof. ring. Qed.

Lemma fraction_monotone total c c' :
  0 < total -> c <= c' ->
  (inject_Z c / inject_Z total <= inject_Z c' / inject_Z total)%Q.
Proof.
  intros Ht Hc. unfold Qdiv. apply Qmult_le_compat_r.
  - by rewrite <- Zle_Qle.
  - apply Qinv_le_0_compat. replace 0%Q with (inject_Z 0) by done.
    rewrite <- Zle_Qle. lia.
Qed.

Lemma fraction_bounds total c :
  0 < total -> 0 <= c <= total ->
  (0 <= inject_Z c / inject_Z total <= 1)%Q.
Proof.
  intros Ht [H0 H1].
  assert (Hpos : (0 < inject_Z total)%Q).
  { replace 0%Q with (inject_Z 0) by done. rewrite <- Zlt_Qlt. lia. }
  split.
  - apply Qle_shift_div_l; [done|]. rewrite Qmult_0_l.
    replace 0%Q with (inject_Z 0) by done. by rewrite <- Zle_Qle.
  - apply Qle_shift_div_r; [done|]. rewrite Qmult_1_l. by rewrite <- Zle_Qle.
Qed.

(** Within the read the reported values stay between 10 and 90 and never
    decrease. *)
Lemma read_progress_sorted total counts :
  0 < total ->
  StronglySorted Z.le counts ->
  Forall (fun c => 0 <= c <= total) counts ->
  StronglySorted Qle (progressValues (map (progressUpdate total) counts))
  /\ Forall (fun p => (10 <= p <= 90)%Q) (progressValues (map (progressUpdate total) counts)).
Proof.
  intros Ht Hsorted Hbounds. rewrite progressValues_updates.
  induction Hsorted as [|c counts Hs IH Hle]; simpl.
  - split; constructor.
  - apply Forall_cons in Hbounds as [Hc Hrest].
    destruct (IH Hrest) as [IHs IHb].
    pose proof (fraction_bounds total c Ht Hc) as [Hf0 Hf1].
    split; constructor; try done.
    + apply Forall_map. rewrite Forall_forall in Hle.
      apply Forall_forall. intros c' Hin. simpl.
      pose proof (fraction_monotone total c c' Ht (Hle _ Hin)). lra.
    + simpl. lra.
Qed.

Section LoadTheorems.
Context `{Platform}.

(** C4.  When the response carries no [content-length] header the body is
    fetched in one piece: after the initial 10 the only progress value
    ever reported is 100, and it is reported exactly when a dataset has
    been handed to [setData]; a load that succeeds performs exactly
    [setLoadProgress(10); setData(d); setLoadProgress(100)] and the
    deferred [setLoading(false)]. *)
Theorem load_without_content_length (r : Response) :
  content_length r = None ->
  let log := loadEffects (Resolved r) in
  ((progressValues log = [10%Q; 100%Q] /\ exists d, dataSets log = [d])
   \/ (progressValues log = [10%Q] /\ dataSets log = []))
  /\ (forall d,
        ok r = true -> read_failure r = None ->
        JSON_parse (TextDecoder_decode (concat (chunks r))) = Normal d ->
        log = [SetLoadProgress 10; SetData d; SetLoadProgress 100; SetLoading false]
        /\ progressValues log = [10%Q; 100%Q]
        /\ data (applyEffects log initialState) = Some d
        /\ loadProgress (applyEffects log initialState) = 100%Q).
Proof.
  intros Hlen log. subst log.
  destruct (ok r) eqn:Hok.
  - rewrite loadEffects_fallback by (done || (left; by rewrite Hlen)).
    unfold after_parse.
    destruct (read_failure r) as [e|];
      [|destruct (JSON_parse _) as [d0|e] eqn:Hparse]; simpl.
    + split; [by right|]. intros d _ [=].
    + split; [left; eauto|]. intros d _ _ [= ->]. done.
    + split; [by right|]. intros d _ _ [=].
  - rewrite loadEffects_not_ok by done. simpl.
    split; [by right|]. intros d [=].
Qed.

(** C5.  A load of a response that declares a content length [L] and
    delivers chunks summing to [L] bytes: after the initial 10, one value
    is reported per chunk and equals [10 + 80 * (received / L)]; then 95 is
    reported, whatever the parser will say; the whole sequence of reported
    values never decreases; and when the payload parses, the dataset is
    stored after the 95 and the last value reported is 100. *)
Theorem chunked_load_progress (r : Response) (L : Z) :
  ok r = true ->
  total_of (content_length r) = Some L -> 0 < L ->
  streaming r = true -> read_failure r = None ->
  totalBytes (chunks r) = L ->
  let log := loadEffects (Resolved r) in
  let during := map (progressUpdate L) (receivedCounts (chunks r) 0) in
  let text := TextDecoder_decode (concat (chunks r)) in
  log = SetLoadProgress 10 :: during ++ SetLoadProgress 95 :: after_parse text
  /\ Forall2 (fun p received =>
                (p == 10 + 80 * (inject_Z received / inject_Z L))%Q)
             (progressValues during) (receivedCounts (chunks r) 0)
  /\ StronglySorted Qle (progressValues log)
  /\ (forall d, JSON_parse text = Normal d ->
        log = SetLoadProgress 10 :: during
              ++ [SetLoadProgress 95; SetData d; SetLoadProgress 100; SetLoading false]
        /\ last (progressValues log) = Some 100%Q).
Proof.
  intros Hok Htotal HL Hstream Hfail Hsum log during text.
  assert (Hlog : log = SetLoadProgress 10 :: during
                       ++ SetLoadProgress 95 :: after_parse text).
  { subst log during text. rewrite (loadEffects_streaming r L); try done.
    - by rewrite Hfail.
    - rewrite Htotal. simpl. destruct (Z.eqb_spec L 0); [lia | done]. }
  assert (Hcounts : Forall (fun c => 0 <= c <= L) (receivedCounts (chunks r) 0)).
  { rewrite <- Hsum.
    eapply Forall_impl; [apply (receivedCounts_bounds (chunks r) 0)|].
    simpl. intros c Hc. lia. }
  destruct (read_progress_sorted L _ HL (receivedCounts_sorted (chunks r) 0) Hcounts)
    as [Hsorted Hrange].
  fold during in Hsorted, Hrange.
  assert (Htail : progressValues (after_parse text) = [100%Q]
                  \/ progressValues (after_parse text) = []).
  { unfold after_parse. destruct (JSON_parse text); [by left | by right]. }
  split; [exact Hlog|]. split; [|split].
  - subst during. rewrite progressValues_updates.
    apply Forall2_fmap_l, Forall_Forall2_diag, Forall_forall.
    intros received _. apply progress_formula.
  - rewrite Hlog. simpl. rewrite progressValues_app. simpl.
    assert (Hlate : Forall (fun q => (95 <= q <= 100)%Q)
                           (95%Q :: progressValues (after_parse text))).
    { apply Forall_cons_2; [lra|]. destruct Htail as [-> | ->].
      - apply Forall_cons_2; [lra | apply Forall_nil_2].
      - apply Forall_nil_2. }
    constructor.
    + apply StronglySorted_app_2; [|exact Hsorted|].
      * intros p q Hp Hq. rewrite Forall_forall in Hrange, Hlate.
        specialize (Hrange p Hp). specialize (Hlate q Hq). lra.
      * apply SSorted_cons.
        -- destruct Htail as [-> | ->].
           ++ apply SSorted_cons; [apply SSorted_nil | apply Forall_nil_2].
           ++ apply SSorted_nil.
        -- apply Forall_cons_1 in Hlate as [_ Hlate].
           eapply Forall_impl; [exact Hlate|]. simpl. intros q Hq. lra.
    + apply Forall_app. split.
      * eapply Forall_impl; [exact Hrange|]. simpl. intros p Hp. lra.
      * eapply Forall_impl; [exact Hlate|]. simpl. intros q Hq. lra.
  - intros d Hparse.
    assert (Hafter : after_parse text
                     = [SetData d; SetLoadProgress 100; SetLoading false]).
    { unfold after_parse. by rewrite Hparse. }
    rewrite Hlog, Hafter. split; [done|].
    simpl. rewrite progressValues_app. simpl.
    change (progressValues during ++ [95%Q; 100%Q])
      with (progressValues during ++ [95%Q] ++ [100%Q]).
    rewrite app_assoc, app_comm_cons. apply last_snoc.
Qed.

(** C7.  A response whose status is not a success makes the load fail
    with the message ["Failed to load mesh data: <status>"]; a payload
    that [JSON.parse] rejects makes it fail with the parser's message.
    In both cases the [catch] clause is the last thing the loader does
    (nothing is fetched again), the message is stored in [error], loading
    ends, [setData] was never called so [data] stays null, and the error
    screen is what [Home] renders. *)
Theorem load_failure_is_reported (r : Response) :
  let log := loadEffects (Resolved r) in
  let final := applyEffects log initialState in
  (ok r = false ->
     let msg := status_message (status r) in
     msg = ("Failed to load mesh data: " +:+ pretty (status r))%string
     /\ log = [SetLoadProgress 10; ConsoleError (JsError msg); SetError msg;
               SetLoading false]
     /\ error final = Some msg /\ loading final = false /\ data final = None
     /\ render final = ErrorScreen msg)
  /\ (forall e,
        ok r = true -> read_failure r = None ->
        JSON_parse (TextDecoder_decode (concat (chunks r))) = Throw e ->
        (exists before,
            log = before ++ [ConsoleError e; SetError (error_text e); SetLoading false]
            /\ dataSets before = [])
        /\ dataSets log = []
        /\ error final = Some (error_text e) /\ loading final = false
        /\ data final = None
        /\ (error_text e <> ""%string -> render final = ErrorScreen (error_text e))).
Proof.
  intros log final. split.
  - intros Hok msg. subst final log. rewrite loadEffects_not_ok by done.
    repeat split.
  - intros e Hok Hfail Hparse.
    assert (Hlog : exists before,
      log = before ++ catch_log e /\ dataSets before = []).
    { subst log.
      destruct (truthy_total (total_of (content_length r))) as [total|] eqn:Htot;
        [destruct (streaming r) eqn:Hs|].
      - rewrite (loadEffects_streaming r total) by done.
        rewrite Hfail. unfold after_parse. rewrite Hparse.
        exists (SetLoadProgress 10
                :: map (progressUpdate total) (receivedCounts (chunks r) 0)
                ++ [SetLoadProgress 95]).
        split; [simpl; by rewrite <- app_assoc|].
        simpl. by rewrite dataSets_app, dataSets_updates.
      - rewrite loadEffects_fallback by auto.
        rewrite Hfail. unfold after_parse. rewrite Hparse.
        by exists [SetLoadProgress 10].
      - rewrite loadEffects_fallback by auto.
        rewrite Hfail. unfold after_parse. rewrite Hparse.
        by exists [SetLoadProgress 10]. }
    destruct Hlog as (before & Hlog & Hbefore).
    assert (Hnone : dataSets log = []).
    { by rewrite Hlog, dataSets_app, Hbefore. }
    assert (Hfinal : final = applyEffects (catch_log e) (applyEffects before initialState)).
    { subst final. by rewrite Hlog, applyEffects_app. }
    destruct (applyEffects_catch_log e (applyEffects before initialState))
      as (Herr & Hload & Hdata).
    rewrite <- Hfinal in Herr, Hload, Hdata.
    rewrite applyEffects_no_data in Hdata by done.
    split; [by exists before|]. repeat split; try done.
    intros Hmsg. unfold render. rewrite Hload, Herr.
    destruct (String.eqb_spec (error_text e) ""); done.
Qed.

End LoadTheorems.

(** The sample payload served without a content length. *)
Lemma load_without_content_length_witness :
  progressValues (loadEffects (Resolved sampleResponseNoLength)) = [10%Q; 100%Q].
Proof.
  destruct (load_without_content_length sampleResponseNoLength eq_refl)
    as [_ Hsuccess].
  destruct (Hsuccess sampleData eq_refl eq_refl eq_refl) as (_ & Hvalues & _).
  exact Hvalues.
Defined.

(** The sample payload served in three chunks with its length declared. *)
Lemma chunked_load_progress_witness :
  last (progressValues (loadEffects (Resolved sampleResponse))) = Some 100%Q.
Proof.
  destruct (chunked_load_progress sampleResponse 4) as (_ & _ & _ & Hdone).
  - reflexivity.
  - reflexivity.
  - lia.
  - reflexivity.
  - reflexivity.
  - reflexivity.
  - destruct (Hdone sampleData eq_refl) as [_ Hlast]. exact Hlast.
Defined.

(** ** The index stays inside the dataset *)

Lemma render_main st d ts :
  render st = MainView d ts -> data st = Some d.
Proof.
  unfold render. intros Hview.
  destruct (loading st); [discriminate|].
  destruct (error st) as [msg|]; [destruct (String.eqb msg "")|];
    destruct (data st); congruence.
Qed.

Lemma handleKeyDown_data key st : data (handleKeyDown key st).1 = data st.
Proof.
  unfold handleKeyDown. destruct (data st) eqn:Hd; [|done].
  repeat case_match; simpl; done.
Qed.

Lemma handleKeyDown_index key d st :
  data st = Some d -> 0 <= currentIndex st <= lastIndex d ->
  0 <= currentIndex (handleKeyDown key st).1 <= lastIndex d.
Proof.
  intros Hd Hr. unfold handleKeyDown, lastIndex in *. rewrite Hd.
  repeat case_match; simpl; lia.
Qed.

Lemma intervalFired_index d st :
  data st = Some d -> 0 <= currentIndex st <= lastIndex d ->
  0 <= currentIndex (intervalFired st) <= lastIndex d.
Proof.
  intros Hd Hr. unfold intervalFired, animationLoop, intervalCallback, lastIndex in *.
  rewrite Hd. destruct (isPlaying st); [|done].
  destruct (Z.geb_spec (currentIndex st + 1) (timesteps_length d)); simpl; lia.
Qed.

(** No input changes the dataset. *)
Lemma handle_data ev st : data (handle ev st) = data st.
Proof.
  destruct ev; simpl; try done.
  - apply intervalFired_data.
  - apply handleKeyDown_data.
  - by destruct (data st) eqn:Hd.
Qed.

(** Every input that can occur keeps the index inside the dataset. *)
Lemma handle_index d ev s :
  data (state s) = Some d -> enabled s ev ->
  0 <= currentIndex (state s) <= lastIndex d ->
  0 <= currentIndex (handle ev (state s)) <= lastIndex d.
Proof.
  intros Hd Hen Hr. destruct ev; simpl; try done.
  - by apply intervalFired_index.
  - by apply handleKeyDown_index.
  - destruct (slider_value_in_range s value Hen) as (d' & Hd' & Hv).
    congruence.
  - lia.
  - rewrite Hd. unfold totalFrames, lastIndex in *. simpl. lia.
Qed.

(** Before the dataset is stored no input moves the index. *)
Lemma handle_index_no_data ev s :
  data (state s) = None -> enabled s ev ->
  currentIndex (handle ev (state s)) = currentIndex (state s).
Proof.
  intros Hd Hen.
  assert (Hnoview : forall d ts, render (state s) <> MainView d ts).
  { intros d ts Hview. apply render_main in Hview. congruence. }
  destruct ev; simpl; try done.
  - by rewrite intervalFired_no_data.
  - unfold handleKeyDown. by rewrite Hd.
  - destruct Hen as (d & ts & Hview & _). by destruct (Hnoview d ts).
  - destruct Hen as (d & ts & Hview). by destruct (Hnoview d ts).
  - by rewrite Hd.
Qed.

Lemma dispatch_invariant ev s :
  sessionInvariant s -> enabled s ev -> sessionInvariant (dispatch ev s).
Proof.
  intros Hinv Hen. unfold sessionInvariant in *.
  destruct ev; unfold dispatch; cbn [state pending];
    try (rewrite handle_data;
         destruct (data (state s)) as [d|] eqn:Hd;
         [ destruct Hinv as [Hr Hp]; split; [by apply handle_index | done]
         | destruct Hinv as [Hi Hp]; split; [|done];
           by rewrite handle_index_no_data ]).
  destruct (pending s) as [|e rest] eqn:Hpend.
  { rewrite Hpend. exact Hinv. }
  cbn [state pending].
  destruct (data (state s)) as [d|] eqn:Hd.
  - destruct Hinv as [Hr Hp].
    destruct e; simpl in *; try discriminate; rewrite Hd; done.
  - destruct Hinv as [Hi Hp].
    destruct e as [p|d'|msg|b|err]; simpl in *; try (rewrite Hd; done).
    destruct Hp as [Hp | (d0 & [= -> Hrest] & Hne)]; [discriminate|].
    split; [|done]. rewrite Hi. unfold lastIndex, timesteps_length.
    destruct (timesteps d0); [done | simpl; lia].
Qed.

Section SessionTheorems.
Context `{Platform}.

Lemma initialSession_invariant outcome :
  (forall d, In d (dataSets (loadEffects outcome)) -> timesteps d <> []) ->
  sessionInvariant (initialSession outcome).
Proof.
  intros Hne. unfold sessionInvariant. simpl. split; [done|].
  destruct (loadEffects_dataSets outcome) as [Hnone | (d & Hone)]; [by left|].
  right. exists d. split; [done|]. apply Hne. rewrite Hone. by left.
Qed.

Lemma reachable_invariant outcome s :
  (forall d, In d (dataSets (loadEffects outcome)) -> timesteps d <> []) ->
  reachable outcome s -> sessionInvariant s.
Proof.
  intros Hne Hreach. induction Hreach as [|s ev Hreach IH Hen].
  - by apply initialSession_invariant.
  - by apply dispatch_invariant.
Qed.

(** C9.  Let the loader deliver a dataset with at least one timestep.  In
    every session reached from the mount of [Home] by loader updates,
    interval firings, key presses, slider values between the slider's
    [min] and [max], and clicks on the controls, the index is a position
    of the stored dataset.  Left arrow at index 0 leaves the index at 0
    and right arrow at the last index leaves it there. *)
Theorem currentIndex_stays_in_range (outcome : FetchOutcome) :
  (forall d, In d (dataSets (loadEffects outcome)) -> timesteps d <> []) ->
  (forall s, reachable outcome s -> indexInRange (state s))
  /\ (forall s d, reachable outcome s -> data (state s) = Some d ->
        currentIndex (state s) = 0 ->
        currentIndex (state (dispatch (KeyDown "ArrowLeft") s)) = 0)
  /\ (forall s d, reachable outcome s -> data (state s) = Some d ->
        currentIndex (state s) = lastIndex d ->
        currentIndex (state (dispatch (KeyDown "ArrowRight") s)) = lastIndex d).
Proof.
  intros Hne. split; [|split].
  - intros s Hreach d Hd.
    pose proof (reachable_invariant outcome s Hne Hreach) as Hinv.
    unfold sessionInvariant in Hinv. rewrite Hd in Hinv. tauto.
  - intros s d Hreach Hd H0. simpl. unfold handleKeyDown. rewrite Hd. simpl.
    rewrite H0. done.
  - intros s d Hreach Hd Hlast.
    pose proof (reachable_invariant outcome s Hne Hreach) as Hinv.
    unfold sessionInvariant in Hinv. rewrite Hd in Hinv.
    simpl. unfold handleKeyDown. rewrite Hd. simpl.
    unfold lastIndex in *. lia.
Qed.

End SessionTheorems.

(** The sample load, then End, right arrow and a firing of the interval. *)
Lemma currentIndex_stays_in_range_witness :
  indexInRange
    (state (dispatchAll
              [LoaderUpdate; LoaderUpdate; LoaderUpdate; LoaderUpdate; LoaderUpdate;
               LoaderUpdate; KeyDown "End"; KeyDown "ArrowRight"; IntervalFire]
              (initialSession (Resolved sampleResponse)))).
Proof.
  assert (Hne : forall d,
    In d (dataSets (loadEffects (Resolved sampleResponse))) -> timesteps d <> []).
  { intros d [<- | []]. discriminate. }
  destruct (currentIndex_stays_in_range (Resolved sampleResponse) Hne) as [Hrange _].
  apply Hrange. cbv [dispatchAll fold_left].
  repeat (apply reachable_dispatch; [|exact I]).
  apply reachable_initial.
Defined.

(** ** The buffers of a geometry *)

Lemma fold_left_push {A B} (f : A -> list B) (l : list A) (acc : list B) :
  fold_left (fun acc x => acc ++ f x) l acc = acc ++ flat_map f l.
Proof.
  revert acc. induction l as [|x l IH]; intros acc; simpl.
  - by rewrite app_nil_r.
  - by rewrite IH, <- app_assoc.
Qed.

Lemma length_flat_map_3 {A B} (f : A -> list B) (l : list A) :
  (forall x, length (f x) = 3%nat) -> length (flat_map f l) = (length l * 3)%nat.
Proof.
  intros Hf. induction l as [|x l IH]; [done|].
  simpl. rewrite length_app, Hf, IH. lia.
Qed.

Lemma posArray_of_length pts : length (posArray_of pts) = (length pts * 3)%nat.
Proof.
  unfold posArray_of.
  rewrite (fold_left_push (fun p => [p0 p; p1 p; p2 p])). simpl.
  by apply length_flat_map_3.
Qed.

Lemma idxArray_of_flat tris :
  idxArray_of tris = flat_map (fun t => [t0 t; t1 t; t2 t]) tris.
Proof. unfold idxArray_of. by rewrite (fold_left_push (fun t => [t0 t; t1 t; t2 t])). Qed.

Lemma Uint32Array_from_flat tris :
  Uint32Array_from (idxArray_of tris) = flat_map storedTriangle tris.
Proof.
  rewrite idxArray_of_flat. unfold Uint32Array_from.
  induction tris as [|t tris IH]; [done|]. simpl. by rewrite IH.
Qed.

Lemma ToUint32_small c : 0 <= c < 2 ^ 32 -> ToUint32 c = c.
Proof. intros Hc. unfold ToUint32. by apply Z.mod_small. Qed.

Section GeometryFacts.
Context `{Platform}.

Lemma forEach_point_length mode zMin zRange pts i colors :
  length (forEach_point mode zMin zRange pts i colors) = length colors.
Proof.
  revert i colors. induction pts as [|point rest IH]; intros i colors; [done|].
  simpl. destruct (vertexColor mode zMin zRange point) as [[r g] b].
  by rewrite IH, !length_insert.
Qed.

Lemma colors_of_length pts mode : length (colors_of pts mode) = (length pts * 3)%nat.
Proof.
  unfold colors_of, Float32Array_new.
  destruct (zScan pts) as [[zMin zMax]|].
  - by rewrite forEach_point_length, length_replicate.
  - by rewrite length_replicate.
Qed.

(** The callback for a later point leaves the entries of the earlier
    points alone. *)
Lemma forEach_point_below mode zMin zRange pts i colors j :
  (j < i * 3)%nat ->
  forEach_point mode zMin zRange pts i colors !! j = colors !! j.
Proof.
  revert i colors. induction pts as [|point rest IH]; intros i colors Hj; [done|].
  simpl. destruct (vertexColor mode zMin zRange point) as [[r g] b].
  rewrite IH by lia.
  rewrite !list_lookup_insert_ne by lia. done.
Qed.

(** After the loop the three entries of a vertex are what the callback
    computed for its point. *)
Lemma forEach_point_vertex mode zMin zRange pts i colors k p :
  pts !! k = Some p ->
  ((i + length pts) * 3 <= length colors)%nat ->
  vertexRGB (forEach_point mode zMin zRange pts i colors) (i + k)
  = Some (vertexColor mode zMin zRange p).
Proof.
  revert i colors k.
  induction pts as [|point rest IH]; intros i colors k Hk Hlen; [done|].
  simpl in Hlen. destruct k as [|k].
  - injection Hk as ->. simpl.
    destruct (vertexColor mode zMin zRange p) as [[r g] b].
    unfold vertexRGB. rewrite Nat.add_0_r.
    rewrite !forEach_point_below by lia.
    rewrite list_lookup_insert_ne by lia.
    rewrite list_lookup_insert_ne by lia.
    rewrite list_lookup_insert_eq by lia.
    rewrite list_lookup_insert_ne by lia.
    rewrite list_lookup_insert_eq by (rewrite length_insert; lia).
    rewrite list_lookup_insert_eq by (rewrite !length_insert; lia).
    done.
  - simpl in Hk. simpl.
    destruct (vertexColor mode zMin zRange point) as [[r g] b].
    replace (i + S k)%nat with (S i + k)%nat by lia.
    apply IH; [done|]. rewrite !length_insert. lia.
Qed.

Lemma colors_of_vertex pts mode zMin zMax k p :
  zScan pts = Some (zMin, zMax) ->
  pts !! k = Some p ->
  vertexRGB (colors_of pts mode) k
  = Some (vertexColor mode zMin (zRange_of zMin zMax) p).
Proof.
  intros Hscan Hk. unfold colors_of. rewrite Hscan.
  apply (forEach_point_vertex mode zMin (zRange_of zMin zMax) pts 0); [done|].
  unfold Float32Array_new. rewrite length_replicate. lia.
Qed.

End GeometryFacts.

(** ** The height scan *)

Lemma Qltb_spec x y : reflect (x < y)%Q (Qltb x y).
Proof. unfold Qltb, Qlt. apply Z.ltb_spec0. Qed.

(** The scan, started from a pair, ends on a pair that encloses the start
    pair and every point, and whose components are the start components or
    heights of points. *)
Lemma zScan_from pts a b :
  exists zMin zMax,
    fold_left zScan_step pts (Some (a, b)) = Some (zMin, zMax)
    /\ (zMin <= a)%Q /\ (b <= zMax)%Q
    /\ (forall p, p ∈ pts -> (zMin <= p2 p)%Q /\ (p2 p <= zMax)%Q)
    /\ (zMin = a \/ exists p, p ∈ pts /\ p2 p = zMin)
    /\ (zMax = b \/ exists p, p ∈ pts /\ p2 p = zMax).
Proof.
  revert a b. induction pts as [|q pts IH]; intros a b.
  - exists a, b. simpl.
    split; [done|]. split; [apply Qle_refl|]. split; [apply Qle_refl|].
    split; [|split; by left].
    intros p Hp. by apply elem_of_nil in Hp.
  - simpl.
    destruct (IH (if Qltb (p2 q) a then p2 q else a)
                 (if Qltb b (p2 q) then p2 q else b))
      as (zMin & zMax & Hfold & Hlo & Hhi & Hall & Hmin & Hmax).
    exists zMin, zMax. split; [exact Hfold|].
    assert (Ha : (zMin <= a)%Q /\ (zMin <= p2 q)%Q).
    { destruct (Qltb_spec (p2 q) a) as [Hlt|Hge]; split; try done.
      - apply Qlt_le_weak in Hlt. by eapply Qle_trans.
      - apply Qnot_lt_le in Hge. by eapply Qle_trans. }
    assert (Hb : (b <= zMax)%Q /\ (p2 q <= zMax)%Q).
    { destruct (Qltb_spec b (p2 q)) as [Hlt|Hge]; split; try done.
      - apply Qlt_le_weak in Hlt. by eapply Qle_trans.
      - apply Qnot_lt_le in Hge. by eapply Qle_trans. }
    split; [tauto|]. split; [tauto|]. split; [|split].
    + intros p Hp. apply elem_of_cons in Hp as [-> | Hin]; [tauto | by apply Hall].
    + destruct Hmin as [-> | (p & Hp & Hz)].
      * destruct (Qltb (p2 q) a); [right; exists q; split; [left|done] | by left].
      * right. exists p. split; [by right | done].
    + destruct Hmax as [-> | (p & Hp & Hz)].
      * destruct (Qltb b (p2 q)); [right; exists q; split; [left|done] | by left].
      * right. exists p. split; [by right | done].
Qed.

(** On a timestep with points the scan yields the least and the greatest
    height. *)
Lemma zScan_extrema pts :
  pts <> [] ->
  exists zMin zMax,
    zScan pts = Some (zMin, zMax) /\ is_zMin pts zMin /\ is_zMax pts zMax.
Proof.
  destruct pts as [|q pts]; [done|]. intros _.
  destruct (zScan_from pts (p2 q) (p2 q))
    as (zMin & zMax & Hfold & Hlo & Hhi & Hall & Hmin & Hmax).
  exists zMin, zMax. split; [exact Hfold|]. split; split.
  - destruct Hmin as [-> | (p & Hp & <-)].
    + exists q. split; [left | apply Qeq_refl].
    + exists p. split; [by right | apply Qeq_refl].
  - intros p Hp. apply elem_of_cons in Hp as [-> | Hin]; [done | by apply Hall].
  - destruct Hmax as [-> | (p & Hp & <-)].
    + exists q. split; [left | apply Qeq_refl].
    + exists p. split; [by right | apply Qeq_refl].
  - intros p Hp. apply elem_of_cons in Hp as [-> | Hin]; [done | by apply Hall].
Qed.

Lemma is_zMin_unique pts z z' : is_zMin pts z -> is_zMin pts z' -> (z == z')%Q.
Proof.
  intros [(p & Hp & Hz) Hlow] [(p' & Hp' & Hz') Hlow'].
  apply Qle_antisym.
  - rewrite <- Hz'. by apply Hlow.
  - rewrite <- Hz. by apply Hlow'.
Qed.

Lemma is_zMax_unique pts z z' : is_zMax pts z -> is_zMax pts z' -> (z == z')%Q.
Proof.
  intros [(p & Hp & Hz) Hup] [(p' & Hp' & Hz') Hup'].
  apply Qle_antisym.
  - rewrite <- Hz. by apply Hup'.
  - rewrite <- Hz'. by apply Hup.
Qed.

Lemma zRange_of_wd zMin zMax zMin' zMax' :
  (zMin == zMin')%Q -> (zMax == zMax')%Q ->
  (zRange_of zMin zMax == zRange_of zMin' zMax')%Q.
Proof.
  intros Hmin Hmax. unfold zRange_of.
  destruct (Qeq_bool (zMax - zMin) 0) eqn:Hz;
    destruct (Qeq_bool (zMax' - zMin') 0) eqn:Hz'.
  - reflexivity.
  - apply Qeq_bool_eq in Hz. apply Qeq_bool_neq in Hz'.
    rewrite Hmin, Hmax in Hz. contradiction.
  - apply Qeq_bool_neq in Hz. apply Qeq_bool_eq in Hz'.
    rewrite Hmin, Hmax in Hz. contradiction.
  - by rewrite Hmin, Hmax.
Qed.

#[local] Instance zRange_of_proper : Proper (Qeq ==> Qeq ==> Qeq) zRange_of.
Proof. intros a a' Ha b b' Hb. by apply zRange_of_wd. Qed.

Lemma zRange_of_flat zMin zMax : (zMin == zMax)%Q -> zRange_of zMin zMax = 1%Q.
Proof.
  intros Hflat. unfold zRange_of.
  destruct (Qeq_bool (zMax - zMin) 0) eqn:Hz; [done|].
  apply Qeq_bool_neq in Hz. destruct Hz. rewrite Hflat. ring.
Qed.

Lemma zRange_of_spread zMin zMax :
  (zMin < zMax)%Q -> zRange_of zMin zMax = (zMax - zMin)%Q.
Proof.
  intros Hlt. unfold zRange_of.
  destruct (Qeq_bool (zMax - zMin) 0) eqn:Hz; [|done].
  apply Qeq_bool_eq in Hz. lra.
Qed.

Lemma heightRamp_wd t t' : (t == t')%Q -> rgb_eq (heightRamp t) (heightRamp t').
Proof.
  intros Ht. unfold rgb_eq, heightRamp. cbn [fst snd].
  repeat split; by rewrite Ht.
Qed.

(** The callback's arithmetic and the specification's ramp agree. *)
Lemma vertexColor_height `{Platform} zMin zRange p :
  rgb_eq (vertexColor height zMin zRange p) (heightRamp ((p2 p - zMin) / zRange)).
Proof. unfold rgb_eq, vertexColor, heightRamp. cbn [fst snd]. repeat split; ring. Qed.

Section GeometryTheorems.
Context `{Platform}.

(** C8.  For every timestep and every colour mode the position buffer
    and the colour buffer hold three numbers per point and the index
    holds three numbers per triangle. *)
Theorem buffer_lengths (timestep : TimestepData) (mode : ColorMode) :
  length (position (geometry_of timestep mode)) = (3 * length (points timestep))%nat
  /\ length (indices (geometry_of timestep mode)) = (3 * length (triangles timestep))%nat
  /\ length (color (geometry_of timestep mode)) = (3 * length (points timestep))%nat.
Proof.
  unfold geometry_of, Float32Array_from. simpl. split; [|split].
  - rewrite posArray_of_length. lia.
  - rewrite Uint32Array_from_flat.
    rewrite (length_flat_map_3 storedTriangle) by done. lia.
  - rewrite colors_of_length. lia.
Qed.

(** C3 (amended).  The derivation checks no index and never fails: for
    every timestep it returns a geometry whose index holds the three
    components of each triangle, in triangle order, as unsigned 32-bit
    numbers; a component that is no index of a point is stored like any
    other. *)
Theorem geometry_keeps_every_index (timestep : TimestepData) (mode : ColorMode) :
  CellMesh_geometry timestep mode = Normal (geometry_of timestep mode)
  /\ indices (geometry_of timestep mode) = flat_map storedTriangle (triangles timestep)
  /\ (forall t c,
        t ∈ triangles timestep -> c ∈ [t0 t; t1 t; t2 t] ->
        Z.of_nat (length (points timestep)) <= c < 2 ^ 32 ->
        c ∈ indices (geometry_of timestep mode)).
Proof.
  split; [done|].
  assert (Hidx : indices (geometry_of timestep mode)
                 = flat_map storedTriangle (triangles timestep)).
  { unfold geometry_of. simpl. apply Uint32Array_from_flat. }
  split; [exact Hidx|].
  intros t c Ht Hc Hrange. rewrite Hidx.
  apply list_elem_of_In, in_flat_map. exists t.
  split; [by apply list_elem_of_In|].
  apply list_elem_of_In. unfold storedTriangle.
  rewrite <- (ToUint32_small c) by lia.
  apply elem_of_cons in Hc as [-> | Hc]; [left|].
  apply elem_of_cons in Hc as [-> | Hc]; [right; left|].
  apply elem_of_cons in Hc as [-> | Hc]; [right; right; left|].
  by apply elem_of_nil in Hc.
Qed.

(** C6 (amended).  In height mode, with [zMin] and [zMax] the least and
    greatest height of the timestep, their difference below the overflow
    bound of binary64, and [zRange] that difference, or 1 when it is zero,
    the colour of every vertex is the ramp
    [(0.1 + 0.9t, 0.3 + 0.4(1 - 2|t - 0.5|), 0.1 + 0.9(1 - t))] at
    [t = (z - zMin) / zRange].  The first component is 0.1 at a vertex of
    least height; it is 1 at a vertex of greatest height (the heights not
    being all equal); when all heights are equal every vertex has the
    colour [(0.1, 0.3, 1)]. *)
Theorem height_colors (timestep : TimestepData) (zMin zMax : Q) :
  is_zMin (points timestep) zMin ->
  is_zMax (points timestep) zMax ->
  (zMax - zMin < doubleOverflow)%Q ->
  let zRange := zRange_of zMin zMax in
  let colors := color (geometry_of timestep height) in
  (forall i p, points timestep !! i = Some p ->
     exists c, vertexRGB colors i = Some c
       /\ rgb_eq c (heightRamp ((p2 p - zMin) / zRange)))
  /\ (forall i p, points timestep !! i = Some p -> (p2 p == zMin)%Q ->
        exists c, vertexRGB colors i = Some c /\ (c.1.1 == 0.1)%Q)
  /\ ((zMin < zMax)%Q ->
        forall i p, points timestep !! i = Some p -> (p2 p == zMax)%Q ->
        exists c, vertexRGB colors i = Some c /\ (c.1.1 == 1)%Q)
  /\ ((forall p q, p ∈ points timestep -> q ∈ points timestep -> (p2 p == p2 q)%Q) ->
        forall i p, points timestep !! i = Some p ->
        exists c, vertexRGB colors i = Some c
          /\ rgb_eq c (0.1%Q, 0.3%Q, 1%Q)).
Proof.
  intros Hmin Hmax _ zRange colors.
  assert (Hramp : forall i p, points timestep !! i = Some p ->
    exists c, vertexRGB colors i = Some c
      /\ rgb_eq c (heightRamp ((p2 p - zMin) / zRange))).
  { intros i p Hp.
    assert (Hne : points timestep <> []) by (intros Hnil; by rewrite Hnil in Hp).
    destruct (zScan_extrema _ Hne) as (zMin' & zMax' & Hscan & Hmin' & Hmax').
    exists (vertexColor height zMin' (zRange_of zMin' zMax') p).
    split; [by apply colors_of_vertex|].
    pose proof (is_zMin_unique _ _ _ Hmin' Hmin) as Ezmin.
    pose proof (is_zMax_unique _ _ _ Hmax' Hmax) as Ezmax.
    pose proof (vertexColor_height zMin' (zRange_of zMin' zMax') p) as (Hr & Hg & Hb).
    assert (Et : ((p2 p - zMin') / zRange_of zMin' zMax'
                  == (p2 p - zMin) / zRange)%Q).
    { subst zRange. by rewrite Ezmin, Ezmax. }
    destruct (heightRamp_wd _ _ Et) as (Hr' & Hg' & Hb').
    unfold rgb_eq. repeat split.
    - by rewrite Hr, Hr'.
    - by rewrite Hg, Hg'.
    - by rewrite Hb, Hb'. }
  split; [exact Hramp|]. split; [|split].
  - intros i p Hp Hz. destruct (Hramp i p Hp) as (c & Hc & Hr & _ & _).
    exists c. split; [done|]. rewrite Hr. unfold heightRamp. cbn [fst snd].
    rewrite Hz. unfold Qminus, Qdiv. rewrite Qplus_opp_r, Qmult_0_l. reflexivity.
  - intros Hlt i p Hp Hz. destruct (Hramp i p Hp) as (c & Hc & Hr & _ & _).
    exists c. split; [done|]. rewrite Hr. unfold heightRamp. cbn [fst snd].
    subst zRange. rewrite zRange_of_spread by done. rewrite Hz.
    field. lra.
  - intros Hflat i p Hp. destruct (Hramp i p Hp) as (c & Hc & Hr & Hg & Hb).
    assert (Ez : (zMin == zMax)%Q).
    { destruct Hmin as [(q & Hq & <-) _]. destruct Hmax as [(q' & Hq' & <-) _].
      by apply Hflat. }
    assert (Ep : (p2 p == zMin)%Q).
    { destruct Hmin as [(q & Hq & <-) _]. apply Hflat; [|done].
      by eapply list_elem_of_lookup_2. }
    assert (Et : ((p2 p - zMin) / zRange == 0)%Q).
    { rewrite Ep. unfold Qminus, Qdiv. by rewrite Qplus_opp_r, Qmult_0_l. }
    destruct (heightRamp_wd _ _ Et) as (Hr' & Hg' & Hb').
    exists c. split; [done|]. unfold rgb_eq. repeat split.
    + by rewrite Hr, Hr'.
    + by rewrite Hg, Hg'.
    + by rewrite Hb, Hb'.
Qed.

End GeometryTheorems.

(** C3 (as stated) fails: the triangle of [sampleDangling] names the points
    1 and 2 of a timestep with a single point, and the geometry is built
    with those numbers in its index. *)
Lemma geometry_fails_fast_counterexample :
  ~ (forall (timestep : TimestepData) (mode : ColorMode),
        (exists t, t ∈ triangles timestep /\ ~ validTriangle timestep t) ->
        exists e, CellMesh_geometry timestep mode = Throw e).
Proof.
  intros Hfails.
  destruct (Hfails sampleDangling height) as [e He]; [|discriminate].
  exists {| t0 := 0; t1 := 1; t2 := 2 |}. split; [left|].
  unfold validTriangle. simpl. lia.
Qed.

(** C6 (as stated) fails on binary64 numbers: with the heights -1e308 and
    1e308 the difference [zMax - zMin] overflows to [Infinity], [t] is
    [Infinity / Infinity] at the higher point, and the first component of
    its colour is [NaN], which is not within any distance of 1. *)
#[warnings="-inexact-float"] Lemma height_colors_overflow_counterexample :
  ~ (forall (heights : list float) (i : nat) (z : float),
        heights !! i = Some z ->
        Forall (fun z' => (z' <=? z)%float = true) heights ->
        exists c, heightColors64 heights !! i = Some c
                  /\ (abs (c.1.1 - 1) <=? 1e-6)%float = true).
Proof.
  intros Hmax.
  destruct (Hmax farHeights 1%nat _ eq_refl) as (c & Hc & Hone).
  - apply Forall_cons_2; [reflexivity|].
    apply Forall_cons_2; [reflexivity | apply Forall_nil_2].
  - vm_compute in Hc. injection Hc as <-. vm_compute in Hone. discriminate.
Qed.

(** The highest point of the sample timestep. *)
Lemma height_colors_witness :
  exists c, vertexRGB (color (geometry_of (sampleTimestep 0) height)) 3 = Some c
            /\ (c.1.1 == 1)%Q.
Proof.
  assert (Hmin : is_zMin (points (sampleTimestep 0)) 0).
  { split.
    - exists {| p0 := 0; p1 := 0; p2 := 0 |}. split; [left | reflexivity].
    - intros p Hp. simpl in Hp.
      repeat (apply elem_of_cons in Hp as [-> | Hp]; [by vm_compute|]).
      by apply elem_of_nil in Hp. }
  assert (Hmax : is_zMax (points (sampleTimestep 0)) 4).
  { split.
    - exists {| p0 := 1; p1 := 1; p2 := 4 |}.
      split; [do 3 right; left | reflexivity].
    - intros p Hp. simpl in Hp.
      repeat (apply elem_of_cons in Hp as [-> | Hp]; [by vm_compute|]).
      by apply elem_of_nil in Hp. }
  assert (Hspread : (4 - 0 < doubleOverflow)%Q) by (by vm_compute).
  destruct (height_colors (sampleTimestep 0) 0 4 Hmin Hmax Hspread)
    as (_ & _ & Hmaxc & _).
  apply (Hmaxc ltac:(reflexivity) 3%nat {| p0 := 1; p1 := 1; p2 := 4 |});
    reflexivity.
Defined.

(** ** The samples, evaluated *)

Example sample_not_found_log :
  loadEffects (Resolved sampleNotFound)
  = [SetLoadProgress 10;
     ConsoleError (JsError "Failed to load mesh data: 404");
     SetError "Failed to load mesh data: 404";
     SetLoading false].
Proof. reflexivity. Qed.

Example sample_malformed_log :
  loadEffects (Resolved sampleMalformed)
  = [SetLoadProgress 10;
     progressUpdate 2 1; progressUpdate 2 2;
     SetLoadProgress 95;
     ConsoleError (JsError "Unexpected token");
     SetError "Unexpected token";
     SetLoading false].
Proof. reflexivity. Qed.

Example sample_streamed_progress :
  Forall2 Qeq
    (progressValues (loadEffects (Resolved sampleResponse)))
    [10%Q; 50%Q; 70%Q; 90%Q; 95%Q; 100%Q].
Proof. repeat (constructor; [reflexivity|]). constructor. Qed.

Example sample_loaded_state :
  applyEffects (loadEffects (Resolved sampleResponseNoLength)) initialState = sampleLoaded.
Proof. reflexivity. Qed.

Example sample_negative_index :
  currentIndex (onIndexChange (-5) sampleLoaded) = -5
  /\ render (onIndexChange (-5) sampleLoaded) = MainView sampleData None.
Proof. split; reflexivity. Qed.

Example sample_dangling_geometry :
  CellMesh_geometry sampleDangling solid
  = Normal {| position := [0%Q; 0%Q; 5%Q];
              indices := [0; 1; 2];
              color := [0.3%Q; 0.7%Q; 0.9%Q] |}.
Proof. reflexivity. Qed.

Example sample_flat_colors :
  Forall2 Qeq (color (geometry_of sampleFlat height))
              [0.1%Q; 0.3%Q; 1%Q; 0.1%Q; 0.3%Q; 1%Q].
Proof. repeat (constructor; [reflexivity|]). constructor. Qed.

Example sample_arrow_keys :
  currentIndex (handleKeyDown "ArrowLeft" sampleLoaded).1 = 0
  /\ currentIndex (handleKeyDown "End" sampleLoaded).1 = 2
  /\ currentIndex (handleKeyDown "ArrowRight" (setCurrentIndex 2 sampleLoaded)).1 = 2.
Proof. repeat split. Qed.

(* ================================================================== *)
(** * Part III. Further properties of the source                       *)
(* ================================================================== *)

(** ** The loader as a whole *)

Lemma errorMessages_app log log' :
  errorMessages (log ++ log') = errorMessages log ++ errorMessages log'.
Proof.
  induction log as [|e log IH]; [done|].
  destruct e; simpl; by rewrite ?IH.
Qed.

Lemma length_receivedCounts incoming received :
  length (receivedCounts incoming received) = length incoming.
Proof.
  revert received. induction incoming as [|value rest IH]; intros received; [done|].
  simpl. by rewrite IH.
Qed.

Lemma isProgress_updates total counts :
  Forall isProgress (map (progressUpdate total) counts).
Proof. apply Forall_map, Forall_forall. by intros c _. Qed.

Lemma dataSets_progress pre : Forall isProgress pre -> dataSets pre = [].
Proof.
  induction 1 as [|e pre He _ IH]; [done|]. by destruct e.
Qed.

Lemma errorMessages_progress pre : Forall isProgress pre -> errorMessages pre = [].
Proof.
  induction 1 as [|e pre He _ IH]; [done|]. by destruct e.
Qed.

(** Progress reports change [loadProgress] and nothing else. *)
Lemma applyEffects_progress pre st :
  Forall isProgress pre ->
  exists p, applyEffects pre st = setLoadProgress p st.
Proof.
  intros Hpre. revert st.
  induction Hpre as [|e pre He _ IH]; intros st.
  - exists (loadProgress st). by destruct st.
  - destruct e as [p| | | |]; try done.
    unfold applyEffects in *. simpl.
    destruct (IH (setLoadProgress p st)) as [q ->]. by exists q.
Qed.

Section LoaderShape.
Context `{Platform}.

(** Every run of [loadData] is a sequence of progress reports followed
    either by the three updates of a success or by the [catch] clause. *)
Lemma loadEffects_shape outcome :
  exists pre tail,
    loadEffects outcome = pre ++ tail
    /\ Forall isProgress pre
    /\ ((exists d, tail = success_log d) \/ (exists e, tail = catch_log e)).
Proof.
  assert (Hparse : forall text,
    (exists d, after_parse text = success_log d) \/ (exists e, after_parse text = catch_log e)).
  { intros text. unfold after_parse. destruct (JSON_parse text); [left|right]; eauto. }
  destruct outcome as [e|r].
  { exists [SetLoadProgress 10], (catch_log e).
    split; [done|]. split; [by repeat constructor | right; eauto]. }
  destruct (ok r) eqn:Hok.
  2:{ exists [SetLoadProgress 10], (catch_log (JsError (status_message (status r)))).
      split; [by apply loadEffects_not_ok|].
      split; [by repeat constructor | right; eauto]. }
  assert (Hfallback :
    truthy_total (total_of (content_length r)) = None \/ streaming r = false ->
    exists pre tail,
      loadEffects (Resolved r) = pre ++ tail
      /\ Forall isProgress pre
      /\ ((exists d, tail = success_log d) \/ (exists e, tail = catch_log e))).
  { intros Hfb. rewrite loadEffects_fallback by done.
    exists [SetLoadProgress 10].
    destruct (read_failure r) as [e|].
    - exists (catch_log e). split; [done|]. split; [by repeat constructor | right; eauto].
    - exists (after_parse (TextDecoder_decode (concat (chunks r)))).
      split; [done|]. split; [by repeat constructor | apply Hparse]. }
  destruct (truthy_total (total_of (content_length r))) as [total|] eqn:Htot;
    [destruct (streaming r) eqn:Hs|]; [|by apply Hfallback; right|by apply Hfallback; left].
  rewrite (loadEffects_streaming r total) by done.
  destruct (read_failure r) as [e|].
  - exists (SetLoadProgress 10 :: map (progressUpdate total) (receivedCounts (chunks r) 0)),
           (catch_log e).
    split; [done|]. split; [|right; eauto].
    apply Forall_cons_2; [done | apply isProgress_updates].
  - exists (SetLoadProgress 10 :: map (progressUpdate total) (receivedCounts (chunks r) 0)
            ++ [SetLoadProgress 95]),
           (after_parse (TextDecoder_decode (concat (chunks r)))).
    split; [simpl; by rewrite <- app_assoc|]. split; [|apply Hparse].
    apply Forall_cons_2; [done|]. apply Forall_app. split; [apply isProgress_updates|].
    by repeat constructor.
Qed.

(** X1.  Whatever [fetch] does, the last update of [loadData] is
    [setLoading(false)], and before it exactly one of two things happened:
    either [setData] was called exactly once, [setError] never, and the
    last progress value is 100; or [setError] was called exactly once,
    with the text of the error, [setData] never, and [data] is still
    null. *)
Theorem loadData_settles (outcome : FetchOutcome) :
  let log := loadEffects outcome in
  let final := applyEffects log initialState in
  last log = Some (SetLoading false)
  /\ loading final = false
  /\ ((length (dataSets log) = 1%nat /\ errorMessages log = []
       /\ error final = None /\ last (progressValues log) = Some 100%Q)
      \/ (exists e, dataSets log = [] /\ errorMessages log = [error_text e]
                    /\ data final = None /\ error final = Some (error_text e))).
Proof.
  intros log final. subst final log.
  destruct (loadEffects_shape outcome) as (pre & tail & -> & Hpre & Htail).
  rewrite dataSets_app, errorMessages_app, applyEffects_app, progressValues_app.
  rewrite (dataSets_progress pre Hpre), (errorMessages_progress pre Hpre).
  destruct (applyEffects_progress pre initialState Hpre) as [p ->].
  destruct Htail as [[d ->] | [e ->]].
  - split; [|split; [done|]].
    + unfold success_log.
      change (pre ++ [SetData d; SetLoadProgress 100; SetLoading false])
        with (pre ++ [SetData d; SetLoadProgress 100] ++ [SetLoading false]).
      rewrite app_assoc. apply last_snoc.
    + left. repeat split. simpl. apply last_snoc.
  - split; [|split; [done|]].
    + unfold catch_log.
      change (pre ++ [ConsoleError e; SetError (error_text e); SetLoading false])
        with (pre ++ [ConsoleError e; SetError (error_text e)] ++ [SetLoading false]).
      rewrite app_assoc. apply last_snoc.
    + right. exists e. done.
Qed.

(** X2.  A [content-length] header that is empty, that [parseInt] cannot
    read or reads as zero, and a response without a body stream, are
    treated exactly like a missing header: the loader performs the same
    updates as for the response with the header removed. *)
Theorem unusable_length_is_no_length (r : Response) :
  truthy_total (total_of (content_length r)) = None \/ streaming r = false ->
  loadEffects (Resolved r) = loadEffects (Resolved (withoutContentLength r)).
Proof.
  intros Hfb. destruct (ok r) eqn:Hok.
  - rewrite (loadEffects_fallback r) by done.
    rewrite (loadEffects_fallback (withoutContentLength r)) by (done || by left).
    done.
  - rewrite (loadEffects_not_ok r) by done.
    by rewrite (loadEffects_not_ok (withoutContentLength r)).
Qed.

(** X3.  When the payload parses to a dataset with at least one
    timestep, the state in which the load leaves [Home] does not depend on
    how the body was read: with or without a usable content length,
    streamed in any number of chunks or not, it is the initial state with
    the dataset stored, progress 100 and loading over, and the main view
    shows the first timestep. *)
Theorem successful_load_final_state (r : Response) (d : MeshData)
    (first : TimestepData) :
  ok r = true -> read_failure r = None ->
  JSON_parse (TextDecoder_decode (concat (chunks r))) = Normal d ->
  timesteps d !! 0%nat = Some first ->
  applyEffects (loadEffects (Resolved r)) initialState = loadedState d
  /\ render (applyEffects (loadEffects (Resolved r)) initialState)
     = MainView d (Some first).
Proof.
  intros Hok Hfail Hparse Hfirst.
  assert (Hafter : after_parse (TextDecoder_decode (concat (chunks r))) = success_log d).
  { unfold after_parse. by rewrite Hparse. }
  assert (Hfinal : applyEffects (loadEffects (Resolved r)) initialState = loadedState d).
  { destruct (truthy_total (total_of (content_length r))) as [total|] eqn:Htot;
      [destruct (streaming r) eqn:Hs|].
    - rewrite (loadEffects_streaming r total) by done. rewrite Hfail, Hafter.
      change (SetLoadProgress 10
              :: map (progressUpdate total) (receivedCounts (chunks r) 0)
              ++ SetLoadProgress 95 :: success_log d)
        with ((SetLoadProgress 10
               :: map (progressUpdate total) (receivedCounts (chunks r) 0))
              ++ SetLoadProgress 95 :: success_log d).
      rewrite applyEffects_app.
      destruct (applyEffects_progress
                  (SetLoadProgress 10
                   :: map (progressUpdate total) (receivedCounts (chunks r) 0))
                  initialState) as [p ->]; [|done].
      apply Forall_cons_2; [done | apply isProgress_updates].
    - rewrite loadEffects_fallback by auto. by rewrite Hfail, Hafter.
    - rewrite loadEffects_fallback by auto. by rewrite Hfail, Hafter. }
  split; [exact Hfinal|]. rewrite Hfinal.
  change (render (loadedState d)) with (MainView d (timesteps d !! 0%nat)).
  by rewrite Hfirst.
Qed.

(** X4.  When the body stream breaks after some chunks, the load performs
    the initial report of 10, one report per chunk that arrived and then
    the [catch] clause with the error of the failed read:
    [setLoadProgress(95)] and [setData] are not reached, and [data] stays
    null.  When the bytes that arrived do not exceed a positive declared
    length, every value reported lies between 10 and 90. *)
Theorem interrupted_stream (r : Response) (total : Z) (e : Exn) :
  ok r = true ->
  truthy_total (total_of (content_length r)) = Some total ->
  streaming r = true ->
  read_failure r = Some e ->
  let log := loadEffects (Resolved r) in
  log = SetLoadProgress 10
        :: map (progressUpdate total) (receivedCounts (chunks r) 0) ++ catch_log e
  /\ length (progressValues log) = S (length (chunks r))
  /\ (0 < total -> totalBytes (chunks r) <= total ->
      Forall (fun p => (10 <= p <= 90)%Q) (progressValues log))
  /\ dataSets log = []
  /\ error (applyEffects log initialState) = Some (error_text e)
  /\ data (applyEffects log initialState) = None.
Proof.
  intros Hok Htot Hs Hfail log. subst log.
  rewrite (loadEffects_streaming r total) by done. rewrite Hfail.
  split; [done|].
  assert (Hpre : Forall isProgress
    (SetLoadProgress 10 :: map (progressUpdate total) (receivedCounts (chunks r) 0))).
  { apply Forall_cons_2; [done | apply isProgress_updates]. }
  split; [|split; [|split; [|split]]].
  - simpl. rewrite progressValues_app, progressValues_updates. simpl.
    by rewrite app_nil_r, length_map, length_receivedCounts.
  - intros Hpos Hsize. simpl. rewrite progressValues_app. simpl. rewrite app_nil_r.
    apply Forall_cons_2; [lra|].
    apply (read_progress_sorted total); [done | apply receivedCounts_sorted |].
    eapply Forall_impl; [apply (receivedCounts_bounds (chunks r) 0)|].
    simpl. intros c Hc. lia.
  - simpl. by rewrite dataSets_app, dataSets_updates.
  - rewrite app_comm_cons, applyEffects_app.
    by destruct (applyEffects_progress _ initialState Hpre) as [p ->].
  - rewrite app_comm_cons, applyEffects_app.
    by destruct (applyEffects_progress _ initialState Hpre) as [p ->].
Qed.

End LoaderShape.

Lemma unusable_length_is_no_length_witness :
  loadEffects (Resolved sampleUnreadableLength)
  = loadEffects (Resolved (withoutContentLength sampleUnreadableLength)).
Proof.
  apply (unusable_length_is_no_length sampleUnreadableLength). left. reflexivity.
Defined.

Lemma successful_load_final_state_witness :
  applyEffects (loadEffects (Resolved sampleResponse)) initialState
  = loadedState sampleData.
Proof.
  destruct (successful_load_final_state sampleResponse sampleData (sampleTimestep 0))
    as [Hfinal _];
    [reflexivity | reflexivity | reflexivity | reflexivity | exact Hfinal].
Defined.

Lemma interrupted_stream_witness :
  dataSets (loadEffects (Resolved sampleInterrupted)) = [].
Proof.
  destruct (interrupted_stream sampleInterrupted 4 (JsError "network error"))
    as (_ & _ & _ & Hnone & _);
    [reflexivity | reflexivity | reflexivity | reflexivity | exact Hnone].
Defined.

(** ** Progress when the declared length is wrong *)

Lemma inject_Z_pos total : 0 < total -> (0 < inject_Z total)%Q.
Proof. intros Ht. replace 0%Q with (inject_Z 0) by done. rewrite <- Zlt_Qlt. lia. Qed.

(** A reported value is at most 95 exactly when the bytes received are at
    most seventeen sixteenths of the declared length. *)
Lemma progress_le_95 total c :
  0 < total ->
  ((10 + (inject_Z c / inject_Z total) * 80 <= 95)%Q <-> 16 * c <= 17 * total).
Proof.
  intros Ht. pose proof (inject_Z_pos total Ht) as Hpos. split.
  - intros Hle. destruct (Z.le_gt_cases (16 * c) (17 * total)) as [|Hgt]; [done|].
    exfalso.
    assert (Hfrac : ((17 # 16) < inject_Z c / inject_Z total)%Q).
    { apply Qlt_shift_div_l; [done|]. unfold Qlt, Qmult, inject_Z. simpl. lia. }
    lra.
  - intros Hle.
    assert (Hfrac : (inject_Z c / inject_Z total <= (17 # 16))%Q).
    { apply Qle_shift_div_r; [done|]. unfold Qle, Qmult, inject_Z. simpl. lia. }
    lra.
Qed.

Lemma read_progress_sorted_below_95 total counts :
  0 < total ->
  StronglySorted Z.le counts ->
  Forall (fun c => 0 <= c /\ 16 * c <= 17 * total) counts ->
  StronglySorted Qle (progressValues (map (progressUpdate total) counts))
  /\ Forall (fun p => (10 <= p <= 95)%Q) (progressValues (map (progressUpdate total) counts)).
Proof.
  intros Ht Hsorted Hbounds. rewrite progressValues_updates.
  pose proof (inject_Z_pos total Ht) as Hpos.
  induction Hsorted as [|c counts Hs IH Hle]; simpl.
  - split; constructor.
  - apply Forall_cons in Hbounds as [[Hc0 Hc] Hrest].
    destruct (IH Hrest) as [IHs IHb].
    assert (Hfrac : (0 <= inject_Z c / inject_Z total)%Q).
    { apply Qle_shift_div_l; [done|]. rewrite Qmult_0_l.
      replace 0%Q with (inject_Z 0) by done. by rewrite <- Zle_Qle. }
    apply (progress_le_95 total c Ht) in Hc.
    split; constructor; try done.
    + apply Forall_map. rewrite Forall_forall in Hle.
      apply Forall_forall. intros c' Hin. simpl.
      pose proof (fraction_monotone total c c' Ht (Hle _ Hin)). lra.
    + simpl. lra.
Qed.

Lemma receivedCounts_last incoming received :
  incoming <> [] ->
  (received + totalBytes incoming) ∈ receivedCounts incoming received.
Proof.
  revert received. induction incoming as [|value rest IH]; intros received Hne; [done|].
  simpl. destruct rest as [|value' rest'].
  - simpl. rewrite Z.add_0_r. left.
  - right. rewrite Z.add_assoc. by apply IH.
Qed.

Section OversizedBody.
Context `{Platform}.

(** X5.  For a streamed load with a declared length [L > 0], the sequence
    of reported progress values is non-decreasing exactly when the bytes
    delivered are at most [17/16] of [L]: a body that is larger than that
    (a declared length that undercounts the body) makes a value above 95
    appear before the 95. *)
Theorem progress_monotone_iff (r : Response) (L : Z) :
  ok r = true ->
  total_of (content_length r) = Some L -> 0 < L ->
  streaming r = true -> read_failure r = None ->
  StronglySorted Qle (progressValues (loadEffects (Resolved r)))
  <-> 16 * totalBytes (chunks r) <= 17 * L.
Proof.
  intros Hok Htotal HL Hstream Hfail.
  assert (Hlog : progressValues (loadEffects (Resolved r))
    = 10%Q :: progressValues (map (progressUpdate L) (receivedCounts (chunks r) 0))
      ++ 95%Q :: progressValues
                   (after_parse (TextDecoder_decode (concat (chunks r))))).
  { rewrite (loadEffects_streaming r L); try done.
    - rewrite Hfail. simpl. by rewrite progressValues_app.
    - rewrite Htotal. simpl. destruct (Z.eqb_spec L 0); [lia | done]. }
  rewrite Hlog. clear Hlog.
  set (tail := progressValues (after_parse (TextDecoder_decode (concat (chunks r))))).
  assert (Htail : tail = [100%Q] \/ tail = []).
  { subst tail. unfold after_parse. destruct (JSON_parse _); [by left | by right]. }
  split.
  - intros Hsorted. apply StronglySorted_inv in Hsorted as [Hsorted _].
    destruct (chunks r) as [|value rest] eqn:Hchunks.
    { simpl. lia. }
    rewrite <- Hchunks in *.
    assert (Hin : (10 + (inject_Z (totalBytes (chunks r)) / inject_Z L) * 80)%Q
                  ∈ progressValues (map (progressUpdate L) (receivedCounts (chunks r) 0))).
    { rewrite progressValues_updates.
      apply (list_elem_of_fmap_2
               (fun received => (10 + (inject_Z received / inject_Z L) * 80)%Q)).
      replace (totalBytes (chunks r)) with (0 + totalBytes (chunks r)) by lia.
      apply receivedCounts_last. by rewrite Hchunks. }
    apply (progress_le_95 L _ HL).
    eapply StronglySorted_app_1_elem_of; [exact Hsorted | exact Hin | left].
  - intros Hsize.
    assert (Hcounts : Forall (fun c => 0 <= c /\ 16 * c <= 17 * L)
                             (receivedCounts (chunks r) 0)).
    { eapply Forall_impl; [apply (receivedCounts_bounds (chunks r) 0)|].
      simpl. intros c Hc. lia. }
    destruct (read_progress_sorted_below_95 L _ HL
                (receivedCounts_sorted (chunks r) 0) Hcounts) as [Hsorted Hrange].
    assert (Hlate : Forall (fun q => (95 <= q <= 100)%Q) (95%Q :: tail)).
    { apply Forall_cons_2; [lra|]. destruct Htail as [-> | ->].
      - apply Forall_cons_2; [lra | apply Forall_nil_2].
      - apply Forall_nil_2. }
    constructor.
    + apply StronglySorted_app_2; [|exact Hsorted|].
      * intros p q Hp Hq. rewrite Forall_forall in Hrange, Hlate.
        specialize (Hrange p Hp). specialize (Hlate q Hq). lra.
      * apply SSorted_cons.
        -- destruct Htail as [-> | ->].
           ++ apply SSorted_cons; [apply SSorted_nil | apply Forall_nil_2].
           ++ apply SSorted_nil.
        -- apply Forall_cons_1 in Hlate as [_ Hlate].
           eapply Forall_impl; [exact Hlate|]. simpl. intros q Hq. lra.
    + apply Forall_app. split.
      * eapply Forall_impl; [exact Hrange|]. simpl. intros p Hp. lra.
      * eapply Forall_impl; [exact Hlate|]. simpl. intros q Hq. lra.
Qed.

End OversizedBody.

(** The sample body of four bytes declared as two: 170 is reported before
    95. *)
Lemma progress_monotone_iff_witness :
  ~ StronglySorted Qle (progressValues (loadEffects (Resolved sampleOversized))).
Proof.
  intros Hsorted.
  apply (progress_monotone_iff sampleOversized 2) in Hsorted;
    [|reflexivity|reflexivity|lia|reflexivity|reflexivity].
  vm_compute in Hsorted. by apply Hsorted.
Defined.

(** ** Reassembling the body *)

Lemma Uint8Array_set_fits target source offset :
  0 <= offset -> offset + chunk_length source <= chunk_length target ->
  Uint8Array_set target source offset
  = Normal (list_inserts (Z.to_nat offset) source target).
Proof.
  intros H0 Hfit. unfold Uint8Array_set.
  destruct (Z.ltb_spec offset 0); [lia|].
  destruct (Z.ltb_spec (chunk_length target) (offset + chunk_length source)); [lia | done].
Qed.

Lemma totalBytes_concat incoming :
  totalBytes incoming = chunk_length (concat incoming).
Proof.
  unfold chunk_length. induction incoming as [|value rest IH]; [done|].
  simpl. rewrite length_app, IH. unfold chunk_length. lia.
Qed.

(** The copy loop, started after the bytes [done] with room left for
    exactly the remaining chunks, appends those chunks. *)
Lemma copy_chunks_appends chunks_acc (done : list Byte.byte) :
  copy_chunks chunks_acc (chunk_length done)
    (done ++ replicate (Z.to_nat (totalBytes chunks_acc)) Byte.x00)
  = Normal (done ++ concat chunks_acc).
Proof.
  revert done. induction chunks_acc as [|chunk rest IH]; intros done.
  - simpl. done.
  - simpl. pose proof (totalBytes_nonneg rest) as Hrest.
    pose proof (chunk_length_nonneg chunk) as Hchunk.
    pose proof (chunk_length_nonneg done) as Hdone.
    rewrite Uint8Array_set_fits; [|done|].
    2:{ unfold chunk_length in *. rewrite length_app, length_replicate. lia. }
    replace (Z.to_nat (chunk_length chunk + totalBytes rest))
      with (length chunk + Z.to_nat (totalBytes rest))%nat
      by (unfold chunk_length; lia).
    rewrite replicate_add.
    replace (Z.to_nat (chunk_length done)) with (length done + 0)%nat
      by (unfold chunk_length; lia).
    rewrite list_inserts_app_r.
    rewrite list_inserts_0_r by (by rewrite length_replicate).
    replace (chunk_length done + chunk_length chunk) with (chunk_length (done ++ chunk))
      by (unfold chunk_length; rewrite length_app; lia).
    rewrite app_assoc, IH. by rewrite <- app_assoc.
Qed.

Section Reassembly.
Context `{Platform}.

(** X6.  The read loop hands the copy loop the chunks in arrival order
    together with their total size, and the copy loop, which writes every
    chunk at the running position into a zeroed array of that size, never
    runs out of the array and produces the chunks' bytes one after the
    other: the text that is decoded is the payload as sent. *)
Theorem body_is_reassembled (total : Z) (incoming : list (list Byte.byte)) :
  snd (read_loop total None incoming [] 0) = Normal (incoming, totalBytes incoming)
  /\ allChunks_copy incoming (totalBytes incoming) = Normal (allChunks_of incoming)
  /\ chunk_length (allChunks_of incoming) = totalBytes incoming.
Proof.
  split; [|split].
  - rewrite read_loop_eq. done.
  - unfold allChunks_copy, allChunks_of.
    apply (copy_chunks_appends incoming []).
  - unfold allChunks_of. by rewrite totalBytes_concat.
Qed.

End Reassembly.

(** ** The keyboard *)

Lemma setCurrentIndex_same v st : v = currentIndex st -> setCurrentIndex v st = st.
Proof. intros ->. by destruct st. Qed.

Lemma setCurrentIndex_twice v w st :
  setCurrentIndex v (setCurrentIndex w st) = setCurrentIndex v st.
Proof. done. Qed.

Lemma handleKeyDown_ArrowLeft d st :
  data st = Some d ->
  (handleKeyDown "ArrowLeft" st).1 = setCurrentIndex (Z.max 0 (currentIndex st - 1)) st.
Proof. intros Hd. unfold handleKeyDown. by rewrite Hd. Qed.

Lemma handleKeyDown_ArrowRight d st :
  data st = Some d ->
  (handleKeyDown "ArrowRight" st).1
  = setCurrentIndex (Z.min (timesteps_length d - 1) (currentIndex st + 1)) st.
Proof. intros Hd. unfold handleKeyDown. by rewrite Hd. Qed.

Lemma handleKeyDown_Home d st :
  data st = Some d -> (handleKeyDown "Home" st).1 = setCurrentIndex 0 st.
Proof. intros Hd. unfold handleKeyDown. by rewrite Hd. Qed.

Lemma handleKeyDown_End d st :
  data st = Some d ->
  (handleKeyDown "End" st).1 = setCurrentIndex (timesteps_length d - 1) st.
Proof. intros Hd. unfold handleKeyDown. by rewrite Hd. Qed.

(** X7.  Whatever the key, the keyboard handler never touches the dataset,
    the loading flag, the progress, the error, the speed or the colour
    mode; it changes nothing at all for a key it does not know; and it
    calls [preventDefault] exactly for the space key once the dataset is
    loaded. *)
Theorem handleKeyDown_frame (key : string) (st : State) :
  let st' := (handleKeyDown key st).1 in
  data st' = data st /\ loading st' = loading st
  /\ loadProgress st' = loadProgress st /\ error st' = error st
  /\ playbackSpeed st' = playbackSpeed st /\ colorMode st' = colorMode st
  /\ (key ∉ [" "; "ArrowLeft"; "ArrowRight"; "Home"; "End"; "r"; "w"]%string -> st' = st)
  /\ ((handleKeyDown key st).2 = true <-> key = " "%string /\ data st <> None).
Proof.
  unfold handleKeyDown. destruct (data st) as [d|] eqn:Hd.
  - destruct (String.eqb_spec key " ") as [->|Hsp].
    { simpl. rewrite Hd. repeat split; try done. intros Hnot. destruct Hnot. left. }
    destruct (String.eqb_spec key "ArrowLeft") as [->|Hl].
    { simpl. rewrite Hd. repeat split; try done; try (by intros []).
      intros Hnot. destruct Hnot. right; left. }
    destruct (String.eqb_spec key "ArrowRight") as [->|Hr].
    { simpl. rewrite Hd. repeat split; try done; try (by intros []).
      intros Hnot. destruct Hnot. do 2 right; left. }
    destruct (String.eqb_spec key "Home") as [->|Hh].
    { simpl. rewrite Hd. repeat split; try done; try (by intros []).
      intros Hnot. destruct Hnot. do 3 right; left. }
    destruct (String.eqb_spec key "End") as [->|He].
    { simpl. rewrite Hd. repeat split; try done; try (by intros []).
      intros Hnot. destruct Hnot. do 4 right; left. }
    destruct (String.eqb_spec key "r") as [->|Hkr].
    { simpl. rewrite Hd. repeat split; try done; try (by intros []).
      intros Hnot. destruct Hnot. do 5 right; left. }
    destruct (String.eqb_spec key "w") as [->|Hkw].
    { simpl. rewrite Hd. repeat split; try done; try (by intros []).
      intros Hnot. destruct Hnot. do 6 right; left. }
    simpl. rewrite Hd. repeat split; try done. by intros [].
  - simpl. rewrite Hd. repeat split; try done. by intros [_ []].
Qed.

(** X8.  Once the dataset is loaded the three toggle keys are involutions:
    pressing space, [r] or [w] twice restores the state exactly. *)
Theorem toggle_keys_are_involutions (key : string) (st : State) :
  key ∈ [" "; "r"; "w"]%string ->
  (handleKeyDown key (handleKeyDown key st).1).1 = st.
Proof.
  intros Hkey.
  assert (Hcases : key = " "%string \/ key = "r"%string \/ key = "w"%string).
  { apply elem_of_cons in Hkey as [-> | Hkey]; [by left|].
    apply elem_of_cons in Hkey as [-> | Hkey]; [by right; left|].
    apply elem_of_cons in Hkey as [-> | Hkey]; [by right; right|].
    by apply elem_of_nil in Hkey. }
  unfold handleKeyDown.
  destruct (data st) as [d|] eqn:Hd.
  - destruct Hcases as [-> | [-> | ->]]; simpl; rewrite Hd; simpl;
      destruct st; simpl in *; by rewrite negb_involutive.
  - simpl. by rewrite Hd.
Qed.

Lemma toggle_keys_are_involutions_witness :
  (handleKeyDown "w" (handleKeyDown "w" sampleLoaded).1).1 = sampleLoaded.
Proof.
  apply (toggle_keys_are_involutions "w" sampleLoaded). right; right; left.
Defined.

(** X9.  Inside the dataset the arrow keys undo each other: left then
    right restores any index but 0, right then left any index but the
    last; at 0 left-right moves to 1, and at the last index right-left
    moves one back (when there is more than one timestep). *)
Theorem arrow_keys_round_trip (d : MeshData) (st : State) :
  data st = Some d -> 0 <= currentIndex st <= lastIndex d ->
  let left := fun s => (handleKeyDown "ArrowLeft" s).1 in
  let right := fun s => (handleKeyDown "ArrowRight" s).1 in
  (0 < currentIndex st -> right (left st) = st)
  /\ (currentIndex st < lastIndex d -> left (right st) = st)
  /\ (currentIndex st = 0 -> 0 < lastIndex d -> currentIndex (right (left st)) = 1)
  /\ (currentIndex st = lastIndex d -> 0 < lastIndex d ->
      currentIndex (left (right st)) = lastIndex d - 1).
Proof.
  intros Hd Hr left right. subst left right. unfold lastIndex in *. cbv beta.
  rewrite (handleKeyDown_ArrowLeft d st Hd), (handleKeyDown_ArrowRight d st Hd).
  rewrite (handleKeyDown_ArrowRight d) by done.
  rewrite (handleKeyDown_ArrowLeft d) by done.
  rewrite !setCurrentIndex_twice.
  change (currentIndex (setCurrentIndex ?v ?s)) with v.
  cbn [currentIndex setCurrentIndex].
  split; [|split; [|split]].
  - intros Hpos. apply setCurrentIndex_same. lia.
  - intros Hlt. apply setCurrentIndex_same. lia.
  - intros H0 Hlast. lia.
  - intros Hl Hlast. lia.
Qed.

Lemma arrow_keys_round_trip_witness :
  (handleKeyDown "ArrowLeft" (handleKeyDown "ArrowRight" sampleLoaded).1).1 = sampleLoaded.
Proof.
  destruct (arrow_keys_round_trip sampleData sampleLoaded) as (_ & Hrl & _).
  - reflexivity.
  - vm_compute. split; discriminate.
  - apply Hrl. reflexivity.
Defined.

(** X10.  The keys repair an index that has left the dataset only in part.
    With at least one timestep and any current index whatever: Home and
    End always land inside; the right arrow never ends above the last
    index and the left arrow never below 0; but the right arrow leaves a
    negative index below -1 negative, and the left arrow leaves an index
    more than one above the last index above it. *)
Theorem keys_on_stray_index (d : MeshData) (st : State) :
  data st = Some d -> timesteps d <> [] ->
  let after := fun key => currentIndex (handleKeyDown key st).1 in
  after "Home"%string = 0
  /\ after "End"%string = lastIndex d
  /\ 0 <= lastIndex d
  /\ after "ArrowRight"%string <= lastIndex d
  /\ 0 <= after "ArrowLeft"%string
  /\ (currentIndex st < -1 -> after "ArrowRight"%string < 0)
  /\ (lastIndex d + 1 < currentIndex st -> lastIndex d < after "ArrowLeft"%string).
Proof.
  intros Hd Hne after. subst after. cbv beta.
  rewrite (handleKeyDown_Home d), (handleKeyDown_End d),
    (handleKeyDown_ArrowRight d), (handleKeyDown_ArrowLeft d) by done.
  cbn [currentIndex setCurrentIndex].
  assert (Hlen : 0 <= lastIndex d).
  { unfold lastIndex, timesteps_length. destruct (timesteps d); [done|].
    rewrite length_cons. lia. }
  unfold lastIndex in *. repeat split; lia.
Qed.

Lemma keys_on_stray_index_witness :
  currentIndex (handleKeyDown "ArrowRight" (onIndexChange (-5) sampleLoaded)).1 < 0.
Proof.
  destruct (keys_on_stray_index sampleData (onIndexChange (-5) sampleLoaded))
    as (_ & _ & _ & _ & _ & Hneg & _).
  - reflexivity.
  - discriminate.
  - apply Hneg. reflexivity.
Defined.

(** X11.  A dataset without timesteps has no valid index: whatever the
    index, [data.timesteps[currentIndex]] is undefined; End sets the index
    to -1; the right arrow never moves the index above -1; and a firing of
    the interval at an index from -1 on pauses at once and leaves the
    index where it is. *)
Theorem empty_dataset (d : MeshData) (st : State) :
  timesteps d = [] -> data st = Some d ->
  (forall i, timestep_at d i = None)
  /\ currentIndex (handleKeyDown "End" st).1 = -1
  /\ currentIndex (handleKeyDown "ArrowRight" st).1 <= -1
  /\ (isPlaying st = true -> -1 <= currentIndex st ->
      isPlaying (intervalFired st) = false
      /\ currentIndex (intervalFired st) = currentIndex st).
Proof.
  intros Hempty Hd.
  assert (Hat : forall i, timestep_at d i = None).
  { intros i. unfold timestep_at. rewrite Hempty. by destruct (i <? 0). }
  assert (Hlen : timesteps_length d = 0).
  { unfold timesteps_length. by rewrite Hempty. }
  split; [exact Hat|]. split; [|split].
  - rewrite (handleKeyDown_End d) by done. cbn [currentIndex setCurrentIndex]. lia.
  - rewrite (handleKeyDown_ArrowRight d) by done.
    cbn [currentIndex setCurrentIndex]. lia.
  - intros Hp Hidx. rewrite (intervalFired_playing d) by done.
    destruct (intervalCallback_cases d st) as [_ Hstop].
    rewrite Hstop by lia. done.
Qed.

Lemma empty_dataset_witness :
  currentIndex (handleKeyDown "End" (loadedState emptyData)).1 = -1.
Proof.
  destruct (empty_dataset emptyData (loadedState emptyData)) as (_ & Hend & _);
    [reflexivity | reflexivity | exact Hend].
Defined.

(** ** Sessions *)

Lemma handleKeyDown_error key st : error (handleKeyDown key st).1 = error st.
Proof.
  unfold handleKeyDown. destruct (data st) eqn:Hd; [|done].
  repeat case_match; simpl; done.
Qed.

Lemma handleKeyDown_speed key st :
  playbackSpeed (handleKeyDown key st).1 = playbackSpeed st.
Proof.
  unfold handleKeyDown. destruct (data st) eqn:Hd; [|done].
  repeat case_match; simpl; done.
Qed.

Lemma intervalFired_frame st :
  error (intervalFired st) = error st
  /\ playbackSpeed (intervalFired st) = playbackSpeed st
  /\ (isPlaying (intervalFired st) = true -> isPlaying st = true).
Proof.
  unfold intervalFired, animationLoop.
  destruct (data st) as [d|]; [|done].
  destruct (isPlaying st) eqn:Hp; [|by rewrite Hp].
  unfold intervalCallback. by case_match.
Qed.

Lemma handle_error ev st : error (handle ev st) = error st.
Proof.
  destruct ev; simpl; try done.
  - apply intervalFired_frame.
  - apply handleKeyDown_error.
  - by destruct (data st) eqn:Hd.
Qed.

Lemma handle_speed ev s :
  enabled s ev -> In (playbackSpeed (state s)) speedOptions ->
  In (playbackSpeed (handle ev (state s))) speedOptions.
Proof.
  intros Hen Hin. destruct ev; simpl; try done.
  - by rewrite (proj1 (proj2 (intervalFired_frame (state s)))).
  - by rewrite handleKeyDown_speed.
  - by destruct (data (state s)) eqn:Hd.
  - by destruct Hen as [_ Hopt].
Qed.

(** Playing can only be switched on where a dataset is present. *)
Lemma handle_playing ev s :
  enabled s ev ->
  (isPlaying (state s) = true -> data (state s) <> None) ->
  isPlaying (handle ev (state s)) = true -> data (state s) <> None.
Proof.
  intros Hen Hinv. destruct ev; simpl; try done.
  - intros Hp. by apply Hinv, intervalFired_frame.
  - intros Hp. destruct (data (state s)) as [d|] eqn:Hd; [done|].
    unfold handleKeyDown in Hp. rewrite Hd in Hp. by apply Hinv.
  - destruct Hen as (d & ts & Hview). apply render_main in Hview. by rewrite Hview.
  - by destruct (data (state s)) eqn:Hd.
Qed.

Lemma dispatch_discipline ev s :
  sessionDiscipline s -> enabled s ev -> sessionDiscipline (dispatch ev s).
Proof.
  intros (Hplay & Hspeed & Hdata & Herr & Hexcl) Hen.
  assert (Hother : ev <> LoaderUpdate ->
    sessionDiscipline {| state := handle ev (state s); pending := pending s |}).
  { intros _. unfold sessionDiscipline. cbn [state pending].
    rewrite handle_data, handle_error.
    split; [by apply handle_playing|]. split; [by apply handle_speed|]. done. }
  destruct ev; try (apply Hother; discriminate).
  unfold dispatch. destruct (pending s) as [|e rest] eqn:Hpend.
  { unfold sessionDiscipline. by rewrite Hpend. }
  unfold sessionDiscipline. cbn [state pending].
  destruct e as [p|d|msg|b|err]; simpl in *; try done.
  - (* setData *)
    destruct Hexcl as [Hnone | (Hnoerr & d' & Hone)]; [discriminate|].
    injection Hone as -> Hrest.
    assert (Hnoerror : error (state s) = None).
    { destruct (error (state s)) eqn:He; [|done].
      assert (Hsome : Some s0 <> None) by done.
      specialize (Herr Hsome). discriminate. }
    split; [done|]. split; [done|]. split; [done|]. split; [|by left].
    intros He. by rewrite Hnoerror in He.
  - (* setError *)
    assert (Hnodata : data (state s) = None).
    { destruct (data (state s)) eqn:Hd; [|done].
      assert (Hsome : Some m <> None) by done.
      destruct (Hdata Hsome) as (_ & Hno & _). discriminate. }
    assert (Hrest : dataSets rest = []).
    { destruct Hexcl as [Hnone | (Hnoerr & _)]; [done | discriminate]. }
    split; [done|]. split; [done|]. split; [by rewrite Hnodata|].
    split; [done | by left].
Qed.

Section SessionFacts.
Context `{Platform}.

Lemma initialSession_discipline outcome : sessionDiscipline (initialSession outcome).
Proof.
  unfold sessionDiscipline. simpl.
  split; [done|]. split; [do 2 right; by left|]. split; [done|]. split; [done|].
  destruct (loadEffects_shape outcome) as (pre & tail & -> & Hpre & Htail).
  rewrite dataSets_app, errorMessages_app.
  rewrite (dataSets_progress pre Hpre), (errorMessages_progress pre Hpre).
  destruct Htail as [[d ->] | [e ->]]; [right | by left].
  split; [done|]. by exists d.
Qed.

Lemma reachable_discipline outcome s : reachable outcome s -> sessionDiscipline s.
Proof.
  induction 1 as [|s ev Hreach IH Hen].
  - apply initialSession_discipline.
  - by apply dispatch_discipline.
Qed.

(** X12.  In every session the interval is armed exactly when [isPlaying]
    is set: playback is never switched on before the dataset is there, so
    the [!data] guard of the animation effect never holds back a playing
    state; and the period of the armed interval is one of 400, 200, 100,
    50 and 25 milliseconds. *)
Theorem interval_armed_iff_playing (outcome : FetchOutcome) (s : Session) :
  reachable outcome s ->
  (isPlaying (state s) = true ->
     exists d, data (state s) = Some d
       /\ animationLoop (state s)
          = Some ((100 / playbackSpeed (state s))%Q, intervalCallback d))
  /\ (isPlaying (state s) = false -> animationLoop (state s) = None)
  /\ Exists (Qeq (100 / playbackSpeed (state s))) periodOptions.
Proof.
  intros Hreach.
  destruct (reachable_discipline outcome s Hreach) as (Hplay & Hspeed & _).
  split; [|split].
  - intros Hp. specialize (Hplay Hp).
    destruct (data (state s)) as [d|] eqn:Hd; [|done].
    exists d. split; [done|]. unfold animationLoop. by rewrite Hd, Hp.
  - intros Hp. unfold animationLoop. rewrite Hp. by destruct (data (state s)).
  - unfold speedOptions, periodOptions in *. simpl in Hspeed.
    destruct Hspeed as [<- | [<- | [<- | [<- | [<- | []]]]]].
    + apply Exists_cons_hd. reflexivity.
    + apply Exists_cons_tl, Exists_cons_hd. reflexivity.
    + do 2 apply Exists_cons_tl. apply Exists_cons_hd. reflexivity.
    + do 3 apply Exists_cons_tl. apply Exists_cons_hd. reflexivity.
    + do 4 apply Exists_cons_tl. apply Exists_cons_hd. reflexivity.
Qed.

(** X13.  A session never has both a dataset and an error: the error
    screen is only shown without a dataset and the main view only without
    an error. *)
Theorem dataset_and_error_exclude (outcome : FetchOutcome) (s : Session) :
  reachable outcome s ->
  (data (state s) <> None -> error (state s) = None)
  /\ (forall msg, render (state s) = ErrorScreen msg -> data (state s) = None)
  /\ (forall d ts, render (state s) = MainView d ts -> error (state s) = None).
Proof.
  intros Hreach.
  destruct (reachable_discipline outcome s Hreach) as (_ & _ & Hdata & _).
  assert (Hexcl : data (state s) <> None -> error (state s) = None).
  { intros Hd. by destruct (Hdata Hd). }
  split; [exact Hexcl|]. split.
  - intros msg Hview. destruct (data (state s)) as [d|] eqn:Hd; [|done].
    assert (Hsome : Some d <> None) by done. specialize (Hexcl Hsome).
    unfold render in Hview. rewrite Hexcl, Hd in Hview.
    by destruct (loading (state s)).
  - intros d ts Hview. apply Hexcl. apply render_main in Hview. by rewrite Hview.
Qed.

(** X14.  Once stored, the dataset is never replaced or removed: no event
    that can occur changes [data]. *)
Theorem dataset_is_never_replaced (outcome : FetchOutcome) (s : Session)
    (d : MeshData) (ev : Event) :
  reachable outcome s -> data (state s) = Some d -> enabled s ev ->
  data (state (dispatch ev s)) = Some d.
Proof.
  intros Hreach Hd Hen.
  destruct (reachable_discipline outcome s Hreach) as (_ & _ & Hdata & _).
  assert (Hsome : data (state s) <> None) by (by rewrite Hd).
  destruct (Hdata Hsome) as (_ & _ & Hnone).
  destruct ev; try (unfold dispatch; cbn [state]; by rewrite handle_data).
  unfold dispatch. destruct (pending s) as [|e rest]; [done|].
  cbn [state]. destruct e; simpl in *; done.
Qed.

(** X15.  When the dataset the loader delivers has a timestep, the main
    view always has a timestep to show: in every session in which [Home]
    renders the main view, [data.timesteps[currentIndex]] is defined. *)
Theorem main_view_has_timestep (outcome : FetchOutcome) (s : Session)
    (d : MeshData) (ts : option TimestepData) :
  (forall d, In d (dataSets (loadEffects outcome)) -> timesteps d <> []) ->
  reachable outcome s ->
  render (state s) = MainView d ts ->
  exists timestep,
    ts = Some timestep
    /\ timesteps d !! Z.to_nat (currentIndex (state s)) = Some timestep.
Proof.
  intros Hne Hreach Hview.
  pose proof (render_main _ _ _ Hview) as Hd.
  pose proof (reachable_invariant outcome s Hne Hreach) as Hinv.
  unfold sessionInvariant in Hinv. rewrite Hd in Hinv. destruct Hinv as [Hr _].
  assert (Hts : ts = timestep_at d (currentIndex (state s))).
  { unfold render in Hview. rewrite Hd in Hview.
    destruct (loading (state s)); [discriminate|].
    destruct (error (state s)) as [msg|]; [destruct (String.eqb msg "")|];
      congruence. }
  unfold timestep_at in Hts.
  destruct (Z.ltb_spec (currentIndex (state s)) 0); [lia|].
  destruct (lookup_lt_is_Some_2 (timesteps d) (Z.to_nat (currentIndex (state s))))
    as [timestep Hlookup].
  { unfold lastIndex, timesteps_length in Hr. lia. }
  exists timestep. by rewrite Hts, Hlookup.
Qed.

End SessionFacts.

Lemma sampleSession_reachable : reachable (Resolved sampleResponse) sampleSession.
Proof.
  unfold sampleSession, sampleEvents. cbv [dispatchAll fold_left].
  apply reachable_dispatch.
  2:{ split; [by exists sampleData, (Some (sampleTimestep 0)) | do 3 right; by left]. }
  apply reachable_dispatch.
  2:{ by exists sampleData, (Some (sampleTimestep 0)). }
  repeat (apply reachable_dispatch; [|exact I]).
  apply reachable_initial.
Qed.

Lemma interval_armed_iff_playing_witness :
  Exists (Qeq (100 / playbackSpeed (state sampleSession))) periodOptions.
Proof.
  destruct (interval_armed_iff_playing (Resolved sampleResponse) sampleSession
              sampleSession_reachable) as (_ & _ & Hperiod).
  exact Hperiod.
Defined.

Lemma dataset_and_error_exclude_witness : error (state sampleSession) = None.
Proof.
  destruct (dataset_and_error_exclude (Resolved sampleResponse) sampleSession
              sampleSession_reachable) as (Hexcl & _).
  by apply Hexcl.
Defined.

Lemma dataset_is_never_replaced_witness :
  data (state (dispatch (KeyDown "End") sampleSession)) = Some sampleData.
Proof.
  apply (dataset_is_never_replaced (Resolved sampleResponse) sampleSession
           sampleData (KeyDown "End") sampleSession_reachable);
    [reflexivity | exact I].
Defined.

Lemma main_view_has_timestep_witness :
  exists timestep,
    Some (sampleTimestep 0) = Some timestep
    /\ timesteps sampleData !! Z.to_nat (currentIndex (state sampleSession))
       = Some timestep.
Proof.
  apply (main_view_has_timestep (Resolved sampleResponse) sampleSession
           sampleData (Some (sampleTimestep 0))).
  - intros d [<- | []]. discriminate.
  - exact sampleSession_reachable.
  - reflexivity.
Defined.

(** ** The buffers read back *)

Lemma itemsOf3_flat_map {A B} (a b c : A -> B) (l : list A) :
  itemsOf3 (flat_map (fun x => [a x; b x; c x]) l) = map (fun x => (a x, b x, c x)) l.
Proof. induction l as [|x l IH]; [done|]. simpl. by rewrite IH. Qed.

Lemma zScan_nil_iff pts : zScan pts = None <-> pts = [].
Proof.
  split; [|by intros ->].
  destruct pts as [|q pts]; [done|]. intros Hscan.
  destruct (zScan_from pts (p2 q) (p2 q)) as (zMin & zMax & Hfold & _).
  unfold zScan in Hscan. simpl in Hscan. congruence.
Qed.

Section BufferContents.
Context `{Platform}.

(** The loop over the points, run on an array whose part before vertex
    [i] is [prefix] and whose rest is as long as three entries per point,
    replaces that rest by the colours of the points. *)
Lemma forEach_point_fills mode zMin zRange pts i prefix rest :
  length prefix = (i * 3)%nat -> length rest = (length pts * 3)%nat ->
  forEach_point mode zMin zRange pts i (prefix ++ rest)
  = prefix ++ flat_map (colorItems mode zMin zRange) pts.
Proof.
  revert i prefix rest.
  induction pts as [|point pts IH]; intros i prefix rest Hprefix Hrest.
  - destruct rest; [done | discriminate].
  - destruct rest as [|z1 [|z2 [|z3 rest]]]; try discriminate.
    simpl. unfold colorItems at 1.
    destruct (vertexColor mode zMin zRange point) as [[r g] b].
    replace (i * 3)%nat with (length prefix + 0)%nat by lia.
    rewrite <- !Nat.add_assoc. rewrite !insert_app_r. simpl.
    change (prefix ++ r :: g :: b :: rest) with (prefix ++ [r; g; b] ++ rest).
    rewrite app_assoc.
    rewrite (IH (S i) (prefix ++ [r; g; b]) rest).
    + by rewrite <- app_assoc.
    + rewrite length_app. simpl. lia.
    + simpl in Hrest. lia.
Qed.

Lemma colors_of_flat pts mode zMin zMax :
  zScan pts = Some (zMin, zMax) ->
  colors_of pts mode = flat_map (colorItems mode zMin (zRange_of zMin zMax)) pts.
Proof.
  intros Hscan. unfold colors_of. rewrite Hscan.
  apply (forEach_point_fills mode zMin (zRange_of zMin zMax) pts 0 []); [done|].
  unfold Float32Array_new. by rewrite length_replicate.
Qed.

Lemma itemsOf3_colorItems mode zMin zRange pts :
  itemsOf3 (flat_map (colorItems mode zMin zRange) pts)
  = map (vertexColor mode zMin zRange) pts.
Proof.
  induction pts as [|p pts IH]; [done|].
  simpl. unfold colorItems at 1.
  destruct (vertexColor mode zMin zRange p) as [[r g] b]. simpl. by rewrite IH.
Qed.


(** X17.  When every triangle of the timestep is valid, every entry of the
    index is the number of an existing point, and if the points are fewer
    than 2^32 the index read back gives the triangles unchanged. *)
Theorem valid_timestep_valid_index (timestep : TimestepData) (mode : ColorMode) :
  validTimestep timestep ->
  let g := geometry_of timestep mode in
  Forall (fun e => 0 <= e < Z.of_nat (length (points timestep))) (indices g)
  /\ (Z.of_nat (length (points timestep)) <= 2 ^ 32 ->
      itemsOf3 (indices g) = map triangleTriple (triangles timestep)).
Proof.
  intros Hvalid g. subst g. unfold geometry_of. cbn [indices].
  rewrite Uint32Array_from_flat. split.
  - apply Forall_forall. intros e He.
    apply list_elem_of_In, in_flat_map in He as (t & Ht & He).
    apply list_elem_of_In in Ht. specialize (Hvalid t Ht).
    destruct Hvalid as (H0 & H1 & H2). unfold storedTriangle, ToUint32 in He.
    assert (Hmod : forall c, 0 <= c -> 0 <= c mod 2 ^ 32 <= c).
    { intros c Hc. split; [apply Z.mod_pos_bound; lia | apply Z.mod_le; lia]. }
    destruct He as [<- | [<- | [<- | []]]].
    + pose proof (Hmod (t0 t)). lia.
    + pose proof (Hmod (t1 t)). lia.
    + pose proof (Hmod (t2 t)). lia.
  - intros Hsize. unfold storedTriangle.
    rewrite (itemsOf3_flat_map (fun t => ToUint32 (t0 t)) (fun t => ToUint32 (t1 t))
               (fun t => ToUint32 (t2 t))).
    apply map_ext_in. intros t Ht. apply list_elem_of_In in Ht.
    destruct (Hvalid t Ht) as (H0 & H1 & H2). unfold triangleTriple.
    rewrite !ToUint32_small by lia. done.
Qed.

(** X18.  Whatever the triangles contain, every entry of the index lies in
    [0, 2^32): a negative component does not fail either but wraps around,
    [-1] becoming [4294967295]. *)
Theorem index_entries_wrap (timestep : TimestepData) (mode : ColorMode) :
  let g := geometry_of timestep mode in
  Forall (fun e => 0 <= e < 2 ^ 32) (indices g)
  /\ (forall t c, t ∈ triangles timestep -> c ∈ [t0 t; t1 t; t2 t] ->
        - 2 ^ 32 <= c < 0 -> (c + 2 ^ 32) ∈ indices g).
Proof.
  unfold geometry_of. cbn [indices]. rewrite Uint32Array_from_flat. split.
  - apply Forall_forall. intros e He.
    apply list_elem_of_In, in_flat_map in He as (t & _ & He).
    unfold storedTriangle, ToUint32 in He.
    destruct He as [<- | [<- | [<- | []]]]; apply Z.mod_pos_bound; lia.
  - intros t c Ht Hc Hneg.
    apply list_elem_of_In, in_flat_map. exists t.
    split; [by apply list_elem_of_In|].
    assert (Hwrap : ToUint32 c = c + 2 ^ 32).
    { unfold ToUint32. symmetry. apply (Z.mod_unique c (2 ^ 32) (-1)); lia. }
    rewrite <- Hwrap. unfold storedTriangle.
    apply elem_of_cons in Hc as [-> | Hc]; [by left|].
    apply elem_of_cons in Hc as [-> | Hc]; [right; by left|].
    apply elem_of_cons in Hc as [-> | Hc]; [right; right; by left|].
    by apply elem_of_nil in Hc.
Qed.

(** X19.  In solid mode every vertex has exactly the colour
    (0.3, 0.7, 0.9), whatever the points are. *)
Theorem solid_colors (timestep : TimestepData) :
  itemsOf3 (color (geometry_of timestep solid))
  = map (fun _ => (0.3%Q, 0.7%Q, 0.9%Q)) (points timestep).
Proof.
  unfold geometry_of. cbn [color].
  destruct (zScan (points timestep)) as [[zMin zMax]|] eqn:Hscan.
  - rewrite (colors_of_flat _ _ zMin zMax Hscan), itemsOf3_colorItems. done.
  - apply zScan_nil_iff in Hscan. by rewrite Hscan.
Qed.

End BufferContents.

(** The two sample triangles are valid. *)
Lemma valid_timestep_valid_index_witness :
  itemsOf3 (indices (geometry_of (sampleTimestep 0) height))
  = map triangleTriple (triangles (sampleTimestep 0)).
Proof.
  destruct (valid_timestep_valid_index (sampleTimestep 0) height) as [_ Hback].
  - intros t Ht. simpl in Ht.
    apply elem_of_cons in Ht as [-> | Ht]; [by vm_compute|].
    apply elem_of_cons in Ht as [-> | Ht]; [by vm_compute|].
    by apply elem_of_nil in Ht.
  - apply Hback. by vm_compute.
Defined.

(** ** Colours *)

Lemma rgb_eq_sym c c' : rgb_eq c c' -> rgb_eq c' c.
Proof. intros (Hr & Hg & Hb). unfold rgb_eq. by rewrite Hr, Hg, Hb. Qed.

Lemma rgb_eq_trans c c' c'' : rgb_eq c c' -> rgb_eq c' c'' -> rgb_eq c c''.
Proof.
  intros (Hr & Hg & Hb) (Hr' & Hg' & Hb'). unfold rgb_eq.
  by rewrite Hr, Hg, Hb, Hr', Hg', Hb'.
Qed.

(** The scan encloses every point. *)
Lemma zScan_encloses pts zMin zMax p :
  zScan pts = Some (zMin, zMax) -> p ∈ pts ->
  (zMin <= p2 p)%Q /\ (p2 p <= zMax)%Q.
Proof.
  intros Hscan Hp.
  assert (Hne : pts <> []) by (intros ->; by apply elem_of_nil in Hp).
  destruct (zScan_extrema pts Hne) as (a & b & Hscan' & [_ Hlow] & [_ Hup]).
  rewrite Hscan in Hscan'. injection Hscan' as -> ->.
  split; [by apply Hlow | by apply Hup].
Qed.

(** The normalised height of a point between the extrema lies in [0, 1]. *)
Lemma normalised_height_range zMin zMax z :
  (zMin <= z)%Q -> (z <= zMax)%Q ->
  (0 <= (z - zMin) / zRange_of zMin zMax <= 1)%Q.
Proof.
  intros Hlo Hhi. unfold zRange_of.
  destruct (Qeq_bool (zMax - zMin) 0) eqn:Hz.
  - apply Qeq_bool_eq in Hz.
    assert (Ht : ((z - zMin) / 1 == z - zMin)%Q) by (field).
    rewrite Ht. lra.
  - apply Qeq_bool_neq in Hz.
    assert (Hpos : (0 < zMax - zMin)%Q).
    { destruct (Qlt_le_dec 0 (zMax - zMin)) as [|Hle]; [done|].
      destruct Hz. lra. }
    split.
    + apply Qle_shift_div_l; [done|]. lra.
    + apply Qle_shift_div_r; [done|]. lra.
Qed.

Section ColourFacts.
Context `{Platform}.

Lemma vertexColor_range mode zMin zMax p :
  (zMin <= p2 p)%Q -> (p2 p <= zMax)%Q ->
  (mode = curvature -> forall x, (0 <= Math_sqrt x)%Q) ->
  Forall (fun c => (0 <= c <= 1)%Q) (colorItems mode zMin (zRange_of zMin zMax) p).
Proof.
  intros Hlo Hhi Hsqrt. unfold colorItems, vertexColor.
  pose proof (normalised_height_range zMin zMax (p2 p) Hlo Hhi) as Ht.
  set (t := ((p2 p - zMin) / zRange_of zMin zMax)%Q) in *.
  destruct mode.
  - pose proof (Qabs_nonneg (t - 0.5)) as Ha0.
    assert (Ha1 : (Qabs (t - 0.5) <= 0.5)%Q).
    { apply Qabs_Qle_condition. lra. }
    set (a := Qabs (t - 0.5)) in *.
    repeat (apply Forall_cons_2; [lra|]). apply Forall_nil_2.
  - specialize (Hsqrt eq_refl).
    set (r := Math_sqrt (p0 p ^ 2 + p1 p ^ 2)).
    assert (Hn0 : (0 <= Qmin (r / 1.2) 1)%Q).
    { apply Q.min_glb; [|lra]. apply Qle_shift_div_l; [lra|].
      rewrite Qmult_0_l. apply Hsqrt. }
    pose proof (Q.le_min_r (r / 1.2) 1) as Hn1.
    set (rNorm := Qmin (r / 1.2) 1) in *.
    repeat (apply Forall_cons_2; [lra|]). apply Forall_nil_2.
  - repeat (apply Forall_cons_2; [lra|]). apply Forall_nil_2.
Qed.

(** X20.  In exact arithmetic every number of the colour buffer lies
    between 0 and 1, in every mode: in height mode because the scan
    encloses every point (the statement is for heights whose differences
    stay below the overflow bound of binary64, beyond which the program
    computes [NaN]), in curvature mode provided [Math.sqrt] returns no
    negative number. *)
Theorem colors_in_unit_interval (timestep : TimestepData) (mode : ColorMode) :
  (mode = height ->
   forall p q, p ∈ points timestep -> q ∈ points timestep ->
     (p2 p - p2 q < doubleOverflow)%Q) ->
  (mode = curvature -> forall x, (0 <= Math_sqrt x)%Q) ->
  Forall (fun c => (0 <= c <= 1)%Q) (color (geometry_of timestep mode)).
Proof.
  intros _ Hsqrt. unfold geometry_of. cbn [color].
  destruct (zScan (points timestep)) as [[zMin zMax]|] eqn:Hscan.
  - rewrite (colors_of_flat _ _ zMin zMax Hscan).
    apply Forall_forall. intros c Hc.
    apply list_elem_of_In, in_flat_map in Hc as (p & Hp & Hc).
    apply list_elem_of_In in Hp.
    destruct (zScan_encloses _ _ _ p Hscan Hp) as [Hlo Hhi].
    pose proof (vertexColor_range mode zMin zMax p Hlo Hhi Hsqrt) as Hrange.
    rewrite Forall_forall in Hrange. by apply Hrange, list_elem_of_In.
  - apply zScan_nil_iff in Hscan. rewrite Hscan. apply Forall_nil_2.
Qed.

(** X21.  In curvature mode the colour of a vertex depends on its distance
    [r] from the third axis only, through [rNorm = min(r / 1.2, 1)]: it is
    [(0.2 + 0.7 rNorm, 0.8 - 0.5 rNorm, 0.9 - 0.6 rNorm)], hence
    (0.9, 0.3, 0.3) from [r = 1.2] on and (0.2, 0.8, 0.9) at [r = 0]. *)
Theorem curvature_colors (timestep : TimestepData) (i : nat) (p : Point) :
  points timestep !! i = Some p ->
  let r := Math_sqrt (p0 p ^ 2 + p1 p ^ 2)%Q in
  let rNorm := Qmin (r / 1.2) 1 in
  exists c,
    vertexRGB (color (geometry_of timestep curvature)) i = Some c
    /\ rgb_eq c ((0.2 + 0.7 * rNorm)%Q, (0.8 - 0.5 * rNorm)%Q, (0.9 - 0.6 * rNorm)%Q)
    /\ ((1.2 <= r)%Q -> rgb_eq c (0.9%Q, 0.3%Q, 0.3%Q))
    /\ ((r == 0)%Q -> rgb_eq c (0.2%Q, 0.8%Q, 0.9%Q)).
Proof.
  intros Hp r rNorm.
  assert (Hne : points timestep <> []) by (intros Hnil; by rewrite Hnil in Hp).
  destruct (zScan_extrema _ Hne) as (zMin & zMax & Hscan & _).
  exists (vertexColor curvature zMin (zRange_of zMin zMax) p).
  split; [by apply colors_of_vertex|].
  unfold vertexColor, rgb_eq. cbn [fst snd]. fold r. fold rNorm.
  split; [repeat split; ring|]. split.
  - intros Hfar.
    assert (Hn : (rNorm == 1)%Q).
    { subst rNorm. apply Q.min_r. apply Qle_shift_div_l; lra. }
    rewrite Hn. repeat split; reflexivity.
  - intros Hzero.
    assert (Hn : (rNorm == 0)%Q).
    { subst rNorm. rewrite Hzero. reflexivity. }
    rewrite Hn. repeat split; reflexivity.
Qed.

End ColourFacts.

Lemma sample_sqrt_nonneg x : (0 <= Math_sqrt x)%Q.
Proof.
  simpl. unfold Qle. simpl. rewrite Z.mul_1_r. apply Z.sqrt_nonneg.
Qed.

Lemma colors_in_unit_interval_witness :
  Forall (fun c => (0 <= c <= 1)%Q) (color (geometry_of sampleFlat height)).
Proof.
  apply (colors_in_unit_interval sampleFlat height); [|discriminate].
  intros _ p q Hp Hq. simpl in Hp, Hq.
  apply elem_of_cons in Hp as [-> | Hp];
    [|apply elem_of_cons in Hp as [-> | Hp]; [|by apply elem_of_nil in Hp]];
    (apply elem_of_cons in Hq as [-> | Hq];
     [|apply elem_of_cons in Hq as [-> | Hq]; [|by apply elem_of_nil in Hq]]);
    by vm_compute.
Defined.

Lemma curvature_colors_witness :
  exists c,
    vertexRGB (color (geometry_of (sampleTimestep 0) curvature)) 3 = Some c
    /\ rgb_eq c (0.9%Q, 0.3%Q, 0.3%Q).
Proof.
  destruct (curvature_colors (sampleTimestep 0) 3 {| p0 := 1; p1 := 1; p2 := 4 |} eq_refl)
    as (c & Hc & _ & Hfar & _).
  exists c. split; [exact Hc|]. apply Hfar. by vm_compute.
Defined.

(** ** Height colours depend on relative height only *)

Lemma is_zMin_rescale k dz pts zMin :
  (0 < k)%Q -> is_zMin pts zMin ->
  is_zMin (map (rescalePoint k dz) pts) (zMin * k + dz)%Q.
Proof.
  intros Hk [(p & Hp & Hz) Hlow]. split.
  - exists (rescalePoint k dz p). split.
    + by apply (list_elem_of_fmap_2 (rescalePoint k dz)).
    + simpl. by rewrite Hz.
  - intros q Hq. apply list_elem_of_fmap in Hq as (q' & -> & Hq'). simpl.
    specialize (Hlow q' Hq').
    apply (Qmult_le_r _ _ k Hk) in Hlow. lra.
Qed.

Lemma is_zMax_rescale k dz pts zMax :
  (0 < k)%Q -> is_zMax pts zMax ->
  is_zMax (map (rescalePoint k dz) pts) (zMax * k + dz)%Q.
Proof.
  intros Hk [(p & Hp & Hz) Hup]. split.
  - exists (rescalePoint k dz p). split.
    + by apply (list_elem_of_fmap_2 (rescalePoint k dz)).
    + simpl. by rewrite Hz.
  - intros q Hq. apply list_elem_of_fmap in Hq as (q' & -> & Hq'). simpl.
    specialize (Hup q' Hq').
    apply (Qmult_le_r _ _ k Hk) in Hup. lra.
Qed.

(** The normalised height is unchanged by a rescaling of all heights. *)
Lemma normalised_height_rescale k dz zMin zMax z :
  (0 < k)%Q -> (zMin <= z)%Q -> (z <= zMax)%Q ->
  ((z * k + dz - (zMin * k + dz)) / zRange_of (zMin * k + dz) (zMax * k + dz)
   == (z - zMin) / zRange_of zMin zMax)%Q.
Proof.
  intros Hk Hlo Hhi.
  destruct (Qlt_le_dec zMin zMax) as [Hlt|Hge].
  - assert (Hlt' : (zMin * k + dz < zMax * k + dz)%Q).
    { apply (Qmult_lt_r _ _ k Hk) in Hlt. lra. }
    rewrite (zRange_of_spread _ _ Hlt), (zRange_of_spread _ _ Hlt').
    field. split; lra.
  - assert (Hflat : (zMin == zMax)%Q) by lra.
    assert (Hflat' : (zMin * k + dz == zMax * k + dz)%Q) by (by rewrite Hflat).
    rewrite (zRange_of_flat _ _ Hflat), (zRange_of_flat _ _ Hflat').
    assert (Hz : (z == zMin)%Q) by lra.
    rewrite Hz. field.
Qed.

Section RelativeHeight.
Context `{Platform}.

(** The colour of a vertex in height mode, for any least and greatest
    height of the timestep. *)
Lemma height_vertex_ramp timestep zMin zMax i p :
  is_zMin (points timestep) zMin -> is_zMax (points timestep) zMax ->
  points timestep !! i = Some p ->
  exists c, vertexRGB (color (geometry_of timestep height)) i = Some c
    /\ rgb_eq c (heightRamp ((p2 p - zMin) / zRange_of zMin zMax)).
Proof.
  intros Hmin Hmax Hp.
  assert (Hne : points timestep <> []) by (intros Hnil; by rewrite Hnil in Hp).
  destruct (zScan_extrema _ Hne) as (zMin' & zMax' & Hscan & Hmin' & Hmax').
  exists (vertexColor height zMin' (zRange_of zMin' zMax') p).
  split; [by apply colors_of_vertex|].
  pose proof (is_zMin_unique _ _ _ Hmin' Hmin) as Ezmin.
  pose proof (is_zMax_unique _ _ _ Hmax' Hmax) as Ezmax.
  eapply rgb_eq_trans; [apply vertexColor_height|].
  apply heightRamp_wd. by rewrite Ezmin, Ezmax.
Qed.

Lemma vertexRGB_beyond timestep mode i :
  points timestep !! i = None ->
  vertexRGB (color (geometry_of timestep mode)) i = None.
Proof.
  intros Hnone. apply lookup_ge_None_1 in Hnone.
  unfold vertexRGB, geometry_of. cbn [color].
  rewrite (lookup_ge_None_2 _ (i * 3)); [done|].
  rewrite colors_of_length. lia.
Qed.

(** X22.  Height colours depend on relative height only: multiplying all
    heights of a timestep by a positive factor and adding a constant
    changes the colour of no vertex. *)
Theorem height_colors_rescale (timestep : TimestepData) (k dz : Q) (i : nat) :
  (0 < k)%Q ->
  rgb_opt_eq
    (vertexRGB (color (geometry_of (mapPoints (rescalePoint k dz) timestep) height)) i)
    (vertexRGB (color (geometry_of timestep height)) i).
Proof.
  intros Hk.
  destruct (points timestep !! i) as [p|] eqn:Hp.
  - assert (Hne : points timestep <> []) by (intros Hnil; by rewrite Hnil in Hp).
    destruct (zScan_extrema _ Hne) as (zMin & zMax & Hscan & Hmin & Hmax).
    assert (Hp' : points (mapPoints (rescalePoint k dz) timestep) !! i
                  = Some (rescalePoint k dz p)).
    { simpl. by rewrite list_lookup_fmap, Hp. }
    destruct (height_vertex_ramp timestep zMin zMax i p Hmin Hmax Hp)
      as (c & -> & Hc).
    destruct (height_vertex_ramp (mapPoints (rescalePoint k dz) timestep)
                (zMin * k + dz) (zMax * k + dz) i (rescalePoint k dz p))
      as (c' & -> & Hc'); [by apply is_zMin_rescale | by apply is_zMax_rescale | done |].
    simpl. eapply rgb_eq_trans; [exact Hc'|].
    eapply rgb_eq_trans; [|apply rgb_eq_sym, Hc].
    apply heightRamp_wd. simpl.
    assert (Hin : p ∈ points timestep) by (by eapply list_elem_of_lookup_2).
    destruct Hmin as [_ Hlow]. destruct Hmax as [_ Hup].
    by apply normalised_height_rescale; [|apply Hlow|apply Hup].
  - rewrite (vertexRGB_beyond timestep height i Hp).
    rewrite (vertexRGB_beyond (mapPoints (rescalePoint k dz) timestep) height i).
    + done.
    + simpl. by rewrite list_lookup_fmap, Hp.
Qed.

End RelativeHeight.

Lemma height_colors_rescale_witness :
  rgb_opt_eq
    (vertexRGB (color (geometry_of (mapPoints (rescalePoint 2 7) (sampleTimestep 0)) height)) 1)
    (vertexRGB (color (geometry_of (sampleTimestep 0) height)) 1).
Proof.
  apply (height_colors_rescale (sampleTimestep 0) 2 7 1). reflexivity.
Defined.

(** ** The rotating group *)

Lemma RotatingGroup_frames_none autoRotate rotationSpeed deltas :
  RotatingGroup_frames autoRotate rotationSpeed deltas None = None.
Proof. unfold RotatingGroup_frames. by induction deltas. Qed.

(** X23.  The rotation of the group depends on elapsed time only, not on
    how that time is cut into frames: after any sequence of frames the
    angle is the start angle plus [rotationSpeed] times the time elapsed
    when auto-rotation is on, and exactly the start angle when it is off;
    while the group is not mounted nothing is computed. *)
Theorem rotation_depends_on_elapsed_time (autoRotate : bool) (rotationSpeed : Q)
    (deltas : list Q) (y : Q) :
  (exists y',
      RotatingGroup_frames autoRotate rotationSpeed deltas (Some y) = Some y'
      /\ (y' == if autoRotate then y + elapsed deltas * rotationSpeed else y)%Q)
  /\ (autoRotate = false ->
      RotatingGroup_frames autoRotate rotationSpeed deltas (Some y) = Some y)
  /\ RotatingGroup_frames autoRotate rotationSpeed deltas None = None.
Proof.
  split; [|split; [|apply RotatingGroup_frames_none]].
  - unfold RotatingGroup_frames. revert y.
    induction deltas as [|delta deltas IH]; intros y.
    + exists y. split; [done|]. destruct autoRotate; [|reflexivity].
      unfold elapsed. simpl. ring.
    + simpl. destruct autoRotate.
      * destruct (IH (y + delta * rotationSpeed)%Q) as (y' & Hrun & Hy').
        exists y'. split; [exact Hrun|]. rewrite Hy'. unfold elapsed. simpl. ring.
      * apply IH.
  - intros ->. unfold RotatingGroup_frames.
    induction deltas as [|delta deltas IH]; [done|]. simpl. apply IH.
Qed.

(** ** The bar over the slider *)

(** X24.  With at least two frames and an index inside the dataset the
    bar over the slider has a width between 0 and 100 percent, 0 at the
    first frame and 100 at the last, growing with the index; with exactly
    one frame the width is the result of a division by zero. *)
Theorem progress_bar_width (currentIndex totalFrames : Z) :
  2 <= totalFrames -> 0 <= currentIndex <= totalFrames - 1 ->
  (exists w,
      progressBarWidth currentIndex totalFrames = Some w
      /\ (0 <= w <= 100)%Q
      /\ (currentIndex = 0 -> (w == 0)%Q)
      /\ (currentIndex = totalFrames - 1 -> (w == 100)%Q)
      /\ (forall j w', currentIndex < j ->
            progressBarWidth j totalFrames = Some w' -> (w < w')%Q))
  /\ progressBarWidth currentIndex 1 = None.
Proof.
  intros Htotal Hidx. split; [|done].
  unfold progressBarWidth.
  destruct (Z.eqb_spec (totalFrames - 1) 0) as [|_]; [lia|].
  eexists. split; [reflexivity|].
  assert (Hpos : 0 < totalFrames - 1) by lia.
  pose proof (inject_Z_pos _ Hpos) as HposQ.
  pose proof (fraction_bounds (totalFrames - 1) currentIndex Hpos Hidx) as [Hf0 Hf1].
  split; [lra|]. split; [|split].
  - intros ->. unfold Qdiv. rewrite Qmult_0_l. reflexivity.
  - intros ->. field. lra.
  - intros j w' Hj [= <-].
    assert (Hlt : (inject_Z currentIndex / inject_Z (totalFrames - 1)
                   < inject_Z j / inject_Z (totalFrames - 1))%Q).
    { unfold Qdiv. apply Qmult_lt_compat_r.
      - by apply Qinv_lt_0_compat.
      - by rewrite <- Zlt_Qlt. }
    lra.
Qed.

Lemma progress_bar_width_witness :
  exists w, progressBarWidth 1 3 = Some w /\ (0 <= w <= 100)%Q.
Proof.
  destruct (progress_bar_width 1 3) as [(w & Hw & Hrange & _) _]; [lia | lia |].
  by exists w.
Defined.

(** ** The binary64 colours, evaluated *)

(** On the heights of the sample timestep the binary64 run gives the first
    components 0.1, 0.325, 0.55 and 1 of the exact ramp, rounded. *)
#[warnings="-inexact-float"] Example sample_heights64 :
  map (fun c => c.1.1) (heightColors64 sampleHeights)
  = [0.1%float; 0.325%float; 0.55%float; 1%float].
Proof. reflexivity. Qed.

(** On [farHeights] the scan finds the two heights, their difference is an
    infinity, the lower vertex is coloured as usual and the higher one has
    no colour at all. *)
#[warnings="-inexact-float"] Example far_heights64 :
  zScan64 farHeights = ((-1e308)%float, 1e308%float)
  /\ zRange64 (-1e308) 1e308 = infinity
  /\ heightColors64 farHeights
     = [(0.1%float, 0.3%float, 1%float); (nan, nan, nan)].
Proof. repeat split. Qed.
